(** * A chunked, fixed-element-size stack (stack.cc)

    Shallow embedding of [582Docs_Assignment3/stack.cc] and the properties
    of its push / pop / peek / discard / pop_n operations.

    Conventions of the embedding:
    - [size_t] values are integers in [0, 2^64); every arithmetic
      operation of the source on a [size_t] is followed by [size_t], the
      reduction modulo [2^64];
    - the singly linked chunk list is a Rocq list, newest chunk first:
      [top_chunk = nullptr] is [[]], [chunk->next] is the tail;
    - the layout of [struct StackChunk] is the LP64 one: [next] takes
      the first 8 bytes, [data] starts at byte 8 and
      [sizeof (StackChunk)] is 16;
    - a chunk is the block of [sizeof (StackChunk) + chunk_size - 1]
      bytes (computed in [size_t]) that [malloc] was asked for; its
      [data] are the cells of the block from byte 8 on.  An access
      outside the block, or through a null pointer, is undefined
      behaviour [UB];
    - [assert] is compiled in (debug build): a failing one is [AssertFail];
    - [malloc] returns a fresh block whose cells are indeterminate
      ([Undef]); the source does not test its result, and neither does
      the embedding;
    - [mallocs] and [frees] count the chunk allocations and deallocations
      performed so far. *)

From Stdlib Require Import ZArith List Lia Bool.
From Stdlib Require Import Strings.Byte.
Import ListNotations.
Open Scope Z_scope.

(** ** Machine integers *)

(** [SIZE_MAX + 1]: the number of values of a 64-bit [size_t]. *)
Definition SIZE_MAX1 : Z := 2 ^ 64.

Definition size_t (z : Z) : Z := z mod SIZE_MAX1.

(** ** Outcomes of a call *)

Inductive outcome (A : Type) : Type :=
| Ok (a : A)
| AssertFail
| UB.

Arguments Ok {A} a.
Arguments AssertFail {A}.
Arguments UB {A}.

Definition bind {A B : Type} (m : outcome A) (f : A -> outcome B) : outcome B :=
  match m with
  | Ok a => f a
  | AssertFail => AssertFail
  | UB => UB
  end.

Notation "x <- m ;; k" := (bind m (fun x => k))
  (at level 61, m at next level, right associativity).
Notation "' pat <- m ;; k" := (bind m (fun x => match x with pat => k end))
  (at level 61, pat pattern, m at next level, right associativity).

(** ** Raw memory *)

(** A cell of raw memory: a byte, or the indeterminate content of freshly
    allocated storage. *)
Inductive memval : Type :=
| Undef
| Byte (b : byte).

Definition bytes (v : list byte) : list memval := map Byte v.

(** [memcpy] source side: [n] cells starting at cell [off]. *)
Definition mem_load (m : list memval) (off n : Z) : outcome (list memval) :=
  if (0 <=? off) && (0 <=? n) && (off + n <=? Z.of_nat (length m))
  then Ok (firstn (Z.to_nat n) (skipn (Z.to_nat off) m))
  else UB.

(** The memory [m] with the cells of [v] written from cell [off] on. *)
Definition mem_write (m : list memval) (off : nat) (v : list memval)
  : list memval :=
  firstn off m ++ v ++ skipn (off + length v) m.

(** [memcpy] destination side. *)
Definition mem_store (m : list memval) (off : Z) (v : list memval)
  : outcome (list memval) :=
  if (0 <=? off) && (off + Z.of_nat (length v) <=? Z.of_nat (length m))
  then Ok (mem_write m (Z.to_nat off) v)
  else UB.

(** ** The data structures *)

(** [struct StackChunk]: [next] is the tail of the list the chunk heads;
    [chunk_id] is the identity of the allocated block. *)
Record StackChunk : Type := mkChunk {
  chunk_id : nat;
  data : list memval
}.

Record BLI_Stack : Type := mkStack {
  elem_size : Z;
  chunk_size : Z;
  chunk_index : Z;
  element_count : Z;
  top_chunk : list StackChunk;
  mallocs : nat;
  frees : nat
}.

(** A pointer into chunk storage: [&chunk->data[off]]. *)
Record ptr : Type := mkPtr {
  p_chunk : nat;
  p_off : Z
}.

(** Access through a pointer into the chunks owned by the stack. *)
Fixpoint chunks_load (cs : list StackChunk) (p : ptr) (n : Z)
  : outcome (list memval) :=
  match cs with
  | [] => UB
  | c :: rest =>
      if Nat.eqb (chunk_id c) (p_chunk p)
      then mem_load (data c) (p_off p) n
      else chunks_load rest p n
  end.

Fixpoint chunks_store (cs : list StackChunk) (p : ptr) (v : list memval)
  : outcome (list StackChunk) :=
  match cs with
  | [] => UB
  | c :: rest =>
      if Nat.eqb (chunk_id c) (p_chunk p)
      then d <- mem_store (data c) (p_off p) v ;;
           Ok (mkChunk (chunk_id c) d :: rest)
      else rest' <- chunks_store rest p v ;; Ok (c :: rest')
  end.

(** ** The operations *)

Definition BLI_stack_new_ex (elem_size chunk_size : Z) : outcome BLI_Stack :=
  if elem_size >? 0 then
    Ok {| elem_size := elem_size;
          chunk_size := if chunk_size >? 0 then chunk_size
                        else size_t (1024 * elem_size);
          chunk_index := 0;
          element_count := 0;
          top_chunk := [];
          mallocs := 0;
          frees := 0 |}
  else AssertFail.

Definition BLI_stack_new (elem_size : Z) : outcome BLI_Stack :=
  BLI_stack_new_ex elem_size (size_t (1024 * elem_size)).

(** The [while] loop of [BLI_stack_free] and [BLI_stack_clear]: one [free]
    per chunk of the list; returns the deallocation counter. *)
Fixpoint free_chunks (cs : list StackChunk) (freed : nat) : nat :=
  match cs with
  | [] => freed
  | _ :: next => free_chunks next (S freed)
  end.

(** [BLI_stack_free] destroys the handle; what is left to observe is the
    pair of allocation counters. *)
Definition BLI_stack_free (s : BLI_Stack) : nat * nat :=
  (mallocs s, free_chunks (top_chunk s) (frees s)).

(** [sizeof (StackChunk)] and [offsetof (StackChunk, data)], which is
    also the size of the [next] pointer. *)
Definition sizeof_StackChunk : Z := 16.

Definition offsetof_data : Z := 8.

(** [sizeof (StackChunk) + stack->chunk_size - 1], the argument of
    [malloc]. *)
Definition malloc_request (s : BLI_Stack) : Z :=
  size_t (sizeof_StackChunk + chunk_size s - 1).

(** The block that [malloc] returns, seen from [data] on. *)
Definition malloc_chunk (s : BLI_Stack) : StackChunk :=
  {| chunk_id := mallocs s;
     data := repeat Undef (Z.to_nat (malloc_request s - offsetof_data)) |}.

(** [!stack->top_chunk || stack->chunk_index == stack->chunk_size] *)
Definition needs_chunk (s : BLI_Stack) : bool :=
  (match top_chunk s with [] => true | _ => false end)
  || (chunk_index s =? chunk_size s).

(** When a chunk is allocated, [new_chunk->next = ...] writes the first
    [offsetof_data] bytes of the block. *)
Definition BLI_stack_push_r (s : BLI_Stack) : outcome (BLI_Stack * ptr) :=
  if needs_chunk s && (malloc_request s <? offsetof_data) then UB else
  let s1 :=
    if needs_chunk s
    then {| elem_size := elem_size s;
            chunk_size := chunk_size s;
            chunk_index := 0;
            element_count := element_count s;
            top_chunk := malloc_chunk s :: top_chunk s;
            mallocs := S (mallocs s);
            frees := frees s |}
    else s in
  match top_chunk s1 with
  | [] => UB
  | c :: _ =>
      Ok ({| elem_size := elem_size s1;
             chunk_size := chunk_size s1;
             chunk_index := size_t (chunk_index s1 + elem_size s1);
             element_count := size_t (element_count s1 + 1);
             top_chunk := top_chunk s1;
             mallocs := mallocs s1;
             frees := frees s1 |},
          {| p_chunk := chunk_id c; p_off := chunk_index s1 |})
  end.

(** [src] is [None] for a null pointer, otherwise the readable cells it
    points to. *)
Definition BLI_stack_push (s : BLI_Stack) (src : option (list memval))
  : outcome BLI_Stack :=
  match src with
  | None => AssertFail
  | Some m =>
      '(s1, dst) <- BLI_stack_push_r s ;;
      v <- mem_load m 0 (elem_size s1) ;;
      cs <- chunks_store (top_chunk s1) dst v ;;
      Ok {| elem_size := elem_size s1;
            chunk_size := chunk_size s1;
            chunk_index := chunk_index s1;
            element_count := element_count s1;
            top_chunk := cs;
            mallocs := mallocs s1;
            frees := frees s1 |}
  end.

(** The caller's destination is a buffer [buf] and a position in it:
    [dst = None] is the null pointer, [dst = Some d] is [&buf[d]].  The
    buffer after the call is returned with the stack. *)
Definition BLI_stack_pop (s : BLI_Stack) (buf : list memval) (dst : option Z)
  : outcome (BLI_Stack * list memval) :=
  s1 <- (if chunk_index s =? 0 then
           match top_chunk s with
           | [] => AssertFail
           | _ :: next =>
               Ok {| elem_size := elem_size s;
                     chunk_size := chunk_size s;
                     chunk_index := chunk_size s;
                     element_count := element_count s;
                     top_chunk := next;
                     mallocs := mallocs s;
                     frees := S (frees s) |}
           end
         else Ok s) ;;
  let s2 := {| elem_size := elem_size s1;
               chunk_size := chunk_size s1;
               chunk_index := size_t (chunk_index s1 - elem_size s1);
               element_count := size_t (element_count s1 - 1);
               top_chunk := top_chunk s1;
               mallocs := mallocs s1;
               frees := frees s1 |} in
  match dst with
  | None => Ok (s2, buf)
  | Some d =>
      match top_chunk s2 with
      | [] => UB
      | c :: _ =>
          v <- mem_load (data c) (chunk_index s2) (elem_size s2) ;;
          buf' <- mem_store buf d v ;;
          Ok (s2, buf')
      end
  end.

Definition BLI_stack_peek (s : BLI_Stack) : outcome ptr :=
  match top_chunk s with
  | [] => AssertFail
  | c :: _ =>
      let offset := size_t (chunk_index s - elem_size s) in
      Ok {| p_chunk := chunk_id c; p_off := offset |}
  end.

Definition BLI_stack_discard (s : BLI_Stack) : outcome BLI_Stack :=
  s1 <- (if chunk_index s =? 0 then
           match top_chunk s with
           | [] => AssertFail
           | _ :: next =>
               Ok {| elem_size := elem_size s;
                     chunk_size := chunk_size s;
                     chunk_index := chunk_size s;
                     element_count := element_count s;
                     top_chunk := next;
                     mallocs := mallocs s;
                     frees := S (frees s) |}
           end
         else Ok s) ;;
  Ok {| elem_size := elem_size s1;
        chunk_size := chunk_size s1;
        chunk_index := size_t (chunk_index s1 - elem_size s1);
        element_count := size_t (element_count s1 - 1);
        top_chunk := top_chunk s1;
        mallocs := mallocs s1;
        frees := frees s1 |}.

Definition BLI_stack_clear (s : BLI_Stack) : BLI_Stack :=
  {| elem_size := elem_size s;
     chunk_size := chunk_size s;
     chunk_index := 0;
     element_count := 0;
     top_chunk := [];
     mallocs := mallocs s;
     frees := free_chunks (top_chunk s) (frees s) |}.

(** [for (unsigned int i = 0; i < n; i++)]: [k] iterations are left and
    the counter is [i]. *)
Fixpoint pop_n_loop (k : nat) (i : Z) (s : BLI_Stack) (buf : list memval)
  (d : Z) : outcome (BLI_Stack * list memval) :=
  match k with
  | O => Ok (s, buf)
  | S k' =>
      '(s', buf') <- BLI_stack_pop s buf (Some (d + size_t (i * elem_size s))) ;;
      pop_n_loop k' (i + 1) s' buf' d
  end.

Definition BLI_stack_pop_n (s : BLI_Stack) (buf : list memval)
  (dst : option Z) (n : Z) : outcome (BLI_Stack * list memval) :=
  match dst with
  | None => AssertFail
  | Some d => pop_n_loop (Z.to_nat n) 0 s buf d
  end.

(** [for (unsigned int i = n; i > 0; i--)]: the counter [i] is [S k']. *)
Fixpoint pop_n_reverse_loop (i : nat) (s : BLI_Stack) (buf : list memval)
  (d : Z) : outcome (BLI_Stack * list memval) :=
  match i with
  | O => Ok (s, buf)
  | S i' =>
      '(s', buf') <-
        BLI_stack_pop s buf (Some (d + size_t (Z.of_nat i' * elem_size s))) ;;
      pop_n_reverse_loop i' s' buf' d
  end.

Definition BLI_stack_pop_n_reverse (s : BLI_Stack) (buf : list memval)
  (dst : option Z) (n : Z) : outcome (BLI_Stack * list memval) :=
  match dst with
  | None => AssertFail
  | Some d => pop_n_reverse_loop (Z.to_nat n) s buf d
  end.

Definition BLI_stack_count (s : BLI_Stack) : Z := element_count s.

Definition BLI_stack_is_empty (s : BLI_Stack) : bool := element_count s =? 0.

(** ** The elements a stack holds *)

(** The [i]-th element slot of a chunk, for elements of [es] cells. *)
Definition slot (es : nat) (c : StackChunk) (i : nat) : list memval :=
  firstn es (skipn (i * es) (data c)).

(** The first [k] slots of a chunk, most recent first. *)
Fixpoint chunk_elems (es : nat) (c : StackChunk) (k : nat)
  : list (list memval) :=
  match k with
  | O => []
  | S k' => slot es c k' :: chunk_elems es c k'
  end.

(** The elements of the stack, top of the stack first: the head chunk is
    filled up to [chunk_index], every older chunk is full. *)
Definition contents (s : BLI_Stack) : list (list memval) :=
  let es := Z.to_nat (elem_size s) in
  match top_chunk s with
  | [] => []
  | c :: rest =>
      chunk_elems es c (Z.to_nat (chunk_index s / elem_size s)) ++
      flat_map (fun c' => chunk_elems es c'
                            (Z.to_nat (chunk_size s / elem_size s))) rest
  end.

(** The representation invariant of a stack whose chunk capacity is a
    positive multiple of its element size and small enough for the
    request [sizeof (StackChunk) + chunk_size - 1] not to wrap
    ([chunk_size < 2^64 - 15]); the block of a chunk then has room for
    [chunk_size] cells of data (and 7 more). *)
Record wf (s : BLI_Stack) : Prop := mkWf {
  wf_es : 0 < elem_size s;
  wf_cs : 0 < chunk_size s < SIZE_MAX1 - 15;
  wf_cs_mul : chunk_size s mod elem_size s = 0;
  wf_idx : 0 <= chunk_index s <= chunk_size s;
  wf_idx_mul : chunk_index s mod elem_size s = 0;
  wf_data : Forall (fun c => chunk_size s <= Z.of_nat (length (data c)))
                   (top_chunk s);
  wf_null : top_chunk s = [] -> chunk_index s = 0;
  wf_count : element_count s = size_t (Z.of_nat (length (contents s)));
  wf_live : mallocs s = (frees s + length (top_chunk s))%nat
}.

(** ** Sequences of calls *)


(** One call of a mutator, with the caller's arguments. *)
Inductive op : Type :=
| OpPush (src : list memval)
| OpPushR
| OpPop (buf : list memval) (dst : option Z)
| OpDiscard
| OpPopN (buf : list memval) (dst : option Z) (n : Z)
| OpPopNReverse (buf : list memval) (dst : option Z) (n : Z)
| OpClear.

Definition exec (o : op) (s : BLI_Stack) : outcome BLI_Stack :=
  match o with
  | OpPush src => BLI_stack_push s (Some src)
  | OpPushR => '(s', _) <- BLI_stack_push_r s ;; Ok s'
  | OpPop buf dst => '(s', _) <- BLI_stack_pop s buf dst ;; Ok s'
  | OpDiscard => BLI_stack_discard s
  | OpPopN buf dst n => '(s', _) <- BLI_stack_pop_n s buf dst n ;; Ok s'
  | OpPopNReverse buf dst n =>
      '(s', _) <- BLI_stack_pop_n_reverse s buf dst n ;; Ok s'
  | OpClear => Ok (BLI_stack_clear s)
  end.

Fixpoint run (ops : list op) (s : BLI_Stack) : outcome BLI_Stack :=
  match ops with
  | [] => Ok s
  | o :: ops' => s' <- exec o s ;; run ops' s'
  end.

(** A destination that is null or has room for [n] cells. *)
Definition dst_ok (buf : list memval) (dst : option Z) (n : Z) : bool :=
  match dst with
  | None => true
  | Some d => (0 <=? d) && (d + n <=? Z.of_nat (length buf))
  end.

(** The documented obligations of the caller of [o] in state [s]. *)
Definition pre (o : op) (s : BLI_Stack) : bool :=
  match o with
  | OpPush src => elem_size s <=? Z.of_nat (length src)
  | OpPushR => true
  | OpPop buf dst =>
      negb (BLI_stack_is_empty s) && dst_ok buf dst (elem_size s)
  | OpDiscard => negb (BLI_stack_is_empty s)
  | OpPopN buf dst n | OpPopNReverse buf dst n =>
      match dst with
      | None => false
      | Some d =>
          (0 <=? n) && (n <? 2 ^ 32) && (n <=? BLI_stack_count s)
          && (0 <=? d) && (d + n * elem_size s <=? Z.of_nat (length buf))
          && (Z.of_nat (length buf) <? SIZE_MAX1)
      end
  | OpClear => true
  end.

(** States reached from [s0] by calls that meet their obligations. *)
Inductive reachable (s0 : BLI_Stack) : BLI_Stack -> Prop :=
| reach_init : reachable s0 s0
| reach_step s o s' :
    reachable s0 s -> pre o s = true -> exec o s = Ok s' -> reachable s0 s'.

(** Every call of [ops], run from [s], meets its obligations. *)
Fixpoint legal (ops : list op) (s : BLI_Stack) : bool :=
  match ops with
  | [] => true
  | o :: ops' =>
      pre o s && match exec o s with
                 | Ok s' => legal ops' s'
                 | _ => false
                 end
  end.

(** Push the values of [vs], first to last. *)
Fixpoint push_all (vs : list (list memval)) (s : BLI_Stack)
  : outcome BLI_Stack :=
  match vs with
  | [] => Ok s
  | v :: vs' => s' <- BLI_stack_push s (Some v) ;; push_all vs' s'
  end.

(** Pop [n] times, each time into a destination of one element; the
    popped values are listed in the order of the pops. *)
Fixpoint pop_values (n : nat) (s : BLI_Stack)
  : outcome (BLI_Stack * list (list memval)) :=
  match n with
  | O => Ok (s, [])
  | S n' =>
      '(s1, b) <- BLI_stack_pop s (repeat Undef (Z.to_nat (elem_size s)))
                                (Some 0) ;;
      '(s2, out) <- pop_values n' s1 ;;
      Ok (s2, b :: out)
  end.

(** Interleavings of pushes and pops/discards. *)
Definition is_push (o : op) : bool :=
  match o with OpPush _ | OpPushR => true | _ => false end.

Definition is_pop (o : op) : bool :=
  match o with OpPop _ _ | OpDiscard => true | _ => false end.

Definition pushes (ops : list op) : Z := Z.of_nat (length (filter is_push ops)).

Definition pops (ops : list op) : Z := Z.of_nat (length (filter is_pop ops)).

(** [interleaving es held ops]: [ops] consists of pushes of [es] readable
    cells and of pops/discards, each pop or discard finding the stack
    non-empty, where [held] elements are on the stack at the start. *)
Fixpoint interleaving (es : Z) (held : nat) (ops : list op) : bool :=
  match ops with
  | [] => true
  | OpPush src :: ops' =>
      (es <=? Z.of_nat (length src)) && interleaving es (S held) ops'
  | OpPushR :: ops' => interleaving es (S held) ops'
  | OpPop buf dst :: ops' =>
      match held with
      | O => false
      | S held' => dst_ok buf dst es && interleaving es held' ops'
      end
  | OpDiscard :: ops' =>
      match held with
      | O => false
      | S held' => interleaving es held' ops'
      end
  | _ :: _ => false
  end.

(** The destination buffer after a pop of the element [x]. *)
Definition popped_into (buf : list memval) (dst : option Z) (x : list memval)
  : list memval :=
  match dst with
  | None => buf
  | Some d => mem_write buf (Z.to_nat d) x
  end.

(** Push the values of [vs] on a fresh stack, then pop as many times. *)
Definition push_then_pop (es cs : Z) (vs : list (list byte))
  : outcome (BLI_Stack * list (list memval)) :=
  s0 <- BLI_stack_new_ex es cs ;;
  s1 <- push_all (map bytes vs) s0 ;;
  pop_values (length vs) s1.

(** The offset of the head chunk is a multiple of the element size and
    lies in [[0, chunk_size]]. *)
Definition index_ok (s : BLI_Stack) : Prop :=
  chunk_index s mod elem_size s = 0
  /\ 0 <= chunk_index s <= chunk_size s.

(** What every call keeps true, whatever its arguments, once the chunk
    capacity is a positive multiple of the element size. *)
Record shape (s : BLI_Stack) : Prop := mkShape {
  shape_es : 0 < elem_size s;
  shape_cs : 0 < chunk_size s < SIZE_MAX1;
  shape_mul : chunk_size s mod elem_size s = 0;
  shape_index : index_ok s
}.

(** ** Bookkeeping and the list a stack stands for *)

(** The sizes are those given at creation, and every chunk allocated so
    far is either freed or resident in the chunk list. *)
Definition ledger (es cs : Z) (s : BLI_Stack) : Prop :=
  elem_size s = es
  /\ chunk_size s = cs
  /\ mallocs s = (frees s + length (top_chunk s))%nat.

(** What a call does to the list [l] of the elements held, top first;
    [l'] is the list after the call.  The element that
    [BLI_stack_push_r] adds is whatever the slot holds. *)
Definition list_step (es : Z) (o : op) (l l' : list (list memval)) : Prop :=
  match o with
  | OpPush src => l' = firstn (Z.to_nat es) src :: l
  | OpPushR => exists x, l' = x :: l
  | OpPop _ _ | OpDiscard => l' = tl l
  | OpPopN _ _ n | OpPopNReverse _ _ n => l' = skipn (Z.to_nat n) l
  | OpClear => l' = []
  end.

(** The chunks that [n] elements need when a chunk takes [m] of them. *)
Definition chunks_for (n m : Z) : Z := (n + m - 1) / m.

(** What every call that returns keeps true, whatever its arguments and
    whether or not it met its obligations, once the chunk capacity is a
    positive multiple of the element size and the allocation request
    does not wrap: moreover every resident block has room for
    [chunk_size] cells of data, and the element count is a [size_t]. *)
Record sound (s : BLI_Stack) : Prop := mkSound {
  sound_shape : shape s;
  sound_request : chunk_size s < SIZE_MAX1 - 15;
  sound_data : Forall (fun c => chunk_size s <= Z.of_nat (length (data c)))
                      (top_chunk s);
  sound_count : 0 <= element_count s < SIZE_MAX1
}.


(** * Properties *)

(** Split a goal into its conjuncts, and nothing else. *)
Ltac conjuncts := repeat match goal with |- _ /\ _ => split end.

(** ** Raw memory *)

Lemma mem_write_length m off v :
  (off + length v <= length m)%nat ->
  length (mem_write m off v) = length m.
Proof.
  intros H. unfold mem_write.
  rewrite !length_app, length_firstn, length_skipn. lia.
Qed.

(** Reading back what was written. *)
Lemma read_mem_write_same m off v :
  (off + length v <= length m)%nat ->
  firstn (length v) (skipn off (mem_write m off v)) = v.
Proof.
  intros H. unfold mem_write.
  rewrite skipn_app, length_firstn.
  replace (Nat.min off (length m)) with off by lia.
  rewrite Nat.sub_diag, (skipn_all2 (firstn off m))
    by (rewrite length_firstn; lia).
  cbn [skipn app].
  rewrite firstn_app, Nat.sub_diag, firstn_all. cbn [firstn].
  apply app_nil_r.
Qed.

(** Cells below a write are not affected by it. *)
Lemma read_mem_write_below m off v a n :
  (a + n <= off)%nat -> (off <= length m)%nat ->
  firstn n (skipn a (mem_write m off v)) = firstn n (skipn a m).
Proof.
  intros Ha Hoff. unfold mem_write.
  rewrite <- (firstn_skipn off m) at 3.
  rewrite !skipn_app, !firstn_app, !length_skipn, !length_firstn.
  replace (n - (Nat.min off (length m) - a))%nat with O by lia.
  reflexivity.
Qed.

(** A list cut at [off] and at [off + n]. *)
Lemma cut3 (m : list memval) (off n : nat) :
  (off + n <= length m)%nat ->
  exists a b c, m = a ++ b ++ c /\ length a = off /\ length b = n.
Proof.
  intros H.
  exists (firstn off m), (firstn n (skipn off m)), (skipn n (skipn off m)).
  rewrite !firstn_skipn, !length_firstn, length_skipn. repeat split; lia.
Qed.

Lemma mem_write_mid a b c v :
  length b = length v ->
  mem_write (a ++ b ++ c) (length a) v = a ++ v ++ c.
Proof.
  intros H. unfold mem_write.
  rewrite firstn_app, Nat.sub_diag, firstn_all. cbn [firstn].
  rewrite app_nil_r, skipn_app, skipn_all2 by lia.
  replace (length a + length v - length a)%nat with (length b) by lia.
  rewrite skipn_app, Nat.sub_diag, skipn_all. reflexivity.
Qed.

Lemma mem_write_adjacent_after m off v1 v2 :
  (off + length v1 + length v2 <= length m)%nat ->
  mem_write (mem_write m off v1) (off + length v1) v2
  = mem_write m off (v1 ++ v2).
Proof.
  intros H.
  destruct (cut3 m off (length v1 + length v2)) as (a & b & c & -> & Ha & Hb);
    [lia|].
  destruct (cut3 b (length v1) (length v2)) as (b1 & b2 & b3 & -> & H1 & H2);
    [lia|].
  assert (b3 = []) as ->
    by (apply length_zero_iff_nil; rewrite !length_app in Hb; lia).
  rewrite app_nil_r. subst off.
  rewrite <- (app_assoc b1 b2 c), (mem_write_mid a b1 (b2 ++ c) v1) by lia.
  rewrite (app_assoc a v1), <- H1 at 1.
  replace (length a + length b1)%nat with (length (a ++ v1))
    by (rewrite length_app; lia).
  rewrite mem_write_mid by lia.
  rewrite (app_assoc b1 b2 c), mem_write_mid by (rewrite !length_app; lia).
  now rewrite <- !app_assoc.
Qed.

(** A write directly before a write is one write of the two values. *)
Lemma mem_write_adjacent_before m off v1 v2 :
  (off + length v2 + length v1 <= length m)%nat ->
  mem_write (mem_write m (off + length v2) v1) off v2
  = mem_write m off (v2 ++ v1).
Proof.
  intros H.
  destruct (cut3 m off (length v2 + length v1)) as (a & b & c & -> & Ha & Hb);
    [lia|].
  destruct (cut3 b (length v2) (length v1)) as (b2 & b1 & b3 & -> & H2 & H1);
    [lia|].
  assert (b3 = []) as ->
    by (apply length_zero_iff_nil; rewrite !length_app in Hb; lia).
  rewrite app_nil_r. subst off.
  rewrite (mem_write_mid a (b2 ++ b1) c (v2 ++ v1))
    by (rewrite !length_app; lia).
  rewrite <- (app_assoc b2 b1 c), (app_assoc a b2).
  replace (length a + length v2)%nat with (length (a ++ b2))
    by (rewrite length_app; lia).
  rewrite mem_write_mid by lia.
  rewrite <- (app_assoc a b2), mem_write_mid by lia.
  now rewrite <- !app_assoc.
Qed.

(** ** Offsets that are multiples of the element size *)

Section Multiples.
Variables es x : Z.
Hypothesis Hes : 0 < es.
Hypothesis Hmul : x mod es = 0.

Lemma multiple_eq : x = es * (x / es).
Proof. apply Z.div_exact; lia. Qed.

Lemma multiple_slots :
  0 <= x -> (Z.to_nat (x / es) * Z.to_nat es)%nat = Z.to_nat x.
Proof.
  intros Hx. rewrite <- Z2Nat.inj_mul; try lia.
  - f_equal. rewrite Z.mul_comm. symmetry. apply multiple_eq.
  - apply Z.div_pos; lia.
Qed.

Lemma multiple_ge : 0 < x -> es <= x.
Proof.
  intros Hx. pose proof multiple_eq as E.
  assert (0 < x / es) by nia. nia.
Qed.

Lemma multiple_succ_mod : (x + es) mod es = 0.
Proof.
  replace (x + es) with (x + 1 * es) by lia.
  rewrite Z.mod_add by lia. exact Hmul.
Qed.

Lemma multiple_pred_mod : (x - es) mod es = 0.
Proof.
  replace (x - es) with (x + (-1) * es) by lia.
  rewrite Z.mod_add by lia. exact Hmul.
Qed.

Lemma multiple_succ_div :
  0 <= x -> Z.to_nat ((x + es) / es) = S (Z.to_nat (x / es)).
Proof.
  intros Hx. replace (x + es) with (x + 1 * es) by lia.
  rewrite Z.div_add by lia.
  assert (0 <= x / es) by (apply Z.div_pos; lia).
  rewrite Z2Nat.inj_add by lia. simpl. lia.
Qed.

Lemma multiple_pred_div :
  es <= x -> Z.to_nat (x / es) = S (Z.to_nat ((x - es) / es)).
Proof.
  intros Hx. replace (x - es) with (x + (-1) * es) by lia.
  rewrite Z.div_add by lia.
  pose proof multiple_eq as E.
  assert (1 <= x / es) by nia.
  lia.
Qed.

Lemma multiple_lt (y : Z) : y mod es = 0 -> x < y -> x + es <= y.
Proof.
  intros Hy Hlt.
  pose proof multiple_eq as Ex.
  assert (Ey : y = es * (y / es)) by (apply Z.div_exact; lia).
  assert (x / es < y / es) by nia. nia.
Qed.
End Multiples.

Lemma size_t_small z : 0 <= z < SIZE_MAX1 -> size_t z = z.
Proof. intros H. unfold size_t. apply Z.mod_small. exact H. Qed.

Lemma size_t_succ z : size_t (size_t z + 1) = size_t (z + 1).
Proof. unfold size_t. apply Zplus_mod_idemp_l. Qed.

Lemma size_t_pred z : size_t (size_t z - 1) = size_t (z - 1).
Proof. unfold size_t. apply Zminus_mod_idemp_l. Qed.

Lemma size_t_range z : 0 <= size_t z < SIZE_MAX1.
Proof. unfold size_t. apply Z.mod_pos_bound. reflexivity. Qed.

(** ** Element slots *)

Lemma chunk_elems_length es c k : length (chunk_elems es c k) = k.
Proof. induction k; simpl; congruence. Qed.

Lemma chunk_elems_ext es c c' k :
  (forall i, (i < k)%nat -> slot es c i = slot es c' i) ->
  chunk_elems es c k = chunk_elems es c' k.
Proof.
  induction k as [|k IH]; intros H; simpl; [reflexivity|].
  rewrite H by lia. f_equal. apply IH. intros i Hi. apply H. lia.
Qed.

Lemma slot_length es c i :
  (i * es + es <= length (data c))%nat -> length (slot es c i) = es.
Proof.
  intros H. unfold slot. rewrite length_firstn, length_skipn. lia.
Qed.

(** Writing slot [k] of a chunk sets that slot and keeps the slots below. *)
Lemma slot_write_same es id m k v :
  length v = es -> (k * es + es <= length m)%nat ->
  slot es (mkChunk id (mem_write m (k * es) v)) k = v.
Proof.
  intros Hv Hk. unfold slot. simpl. subst es.
  apply read_mem_write_same. lia.
Qed.

Lemma slot_write_below es id id' m k v i :
  (i < k)%nat -> (k * es <= length m)%nat ->
  slot es (mkChunk id (mem_write m (k * es) v)) i = slot es (mkChunk id' m) i.
Proof.
  intros Hi Hk. unfold slot. simpl.
  apply read_mem_write_below; nia.
Qed.

(** ** Push *)

(** A request that does not wrap leaves [chunk_size + 7] cells of data. *)
Lemma malloc_request_fits s :
  0 < chunk_size s < SIZE_MAX1 - 15 ->
  malloc_request s = chunk_size s + 15
  /\ (malloc_request s <? offsetof_data) = false
  /\ Z.of_nat (length (data (malloc_chunk s))) = chunk_size s + 7.
Proof.
  intros H.
  assert (E : malloc_request s = chunk_size s + 15).
  { unfold malloc_request, sizeof_StackChunk.
    rewrite size_t_small by lia. lia. }
  split; [exact E|]. split.
  - rewrite E. unfold offsetof_data. apply Z.ltb_ge. lia.
  - unfold malloc_chunk. cbn [data].
    rewrite repeat_length, E. unfold offsetof_data. lia.
Qed.

(** What a call of [BLI_stack_push_r] that returns has done, in any
    state. *)
Lemma push_r_inv s s' p :
  BLI_stack_push_r s = Ok (s', p) ->
  elem_size s' = elem_size s
  /\ chunk_size s' = chunk_size s
  /\ chunk_index s'
     = size_t ((if needs_chunk s then 0 else chunk_index s) + elem_size s)
  /\ element_count s' = size_t (element_count s + 1)
  /\ top_chunk s'
     = (if needs_chunk s then malloc_chunk s :: top_chunk s
        else top_chunk s)
  /\ mallocs s' = (if needs_chunk s then S (mallocs s) else mallocs s)
  /\ frees s' = frees s
  /\ (needs_chunk s = true -> offsetof_data <= malloc_request s)
  /\ exists c rest,
       top_chunk s' = c :: rest
       /\ p = {| p_chunk := chunk_id c;
                 p_off := if needs_chunk s then 0 else chunk_index s |}.
Proof.
  unfold BLI_stack_push_r. intros H.
  destruct (needs_chunk s) eqn:Hneed; cbn [andb top_chunk] in H.
  - destruct (malloc_request s <? offsetof_data) eqn:Hreq; [discriminate|].
    apply Z.ltb_ge in Hreq.
    injection H as <- <-. cbn. conjuncts; auto. eauto.
  - destruct (top_chunk s) as [|c rest] eqn:Etop; [discriminate|].
    injection H as <- <-. cbn.
    conjuncts; auto; try discriminate. eauto.
Qed.

(** What [BLI_stack_push_r] does to a well-formed stack: it always returns,
    the new top slot is the last one below the new offset of the head
    chunk, and the elements below it are those held before. *)
Lemma push_r_spec s :
  wf s ->
  exists s' c rest,
    BLI_stack_push_r s
    = Ok (s', {| p_chunk := chunk_id c;
                 p_off := chunk_index s' - elem_size s |})
    /\ top_chunk s' = c :: rest
    /\ wf s'
    /\ elem_size s' = elem_size s
    /\ chunk_size s' = chunk_size s
    /\ elem_size s <= chunk_index s'
    /\ contents s' <> []
    /\ tl (contents s') = contents s
    /\ frees s' = frees s
    /\ mallocs s' = (if needs_chunk s then S (mallocs s) else mallocs s)
    /\ chunk_index s' = (if needs_chunk s then elem_size s
                         else chunk_index s + elem_size s).
Proof.
  intros [Hes Hcs Hcm Hidx Him Hdata Hnull Hcount Hlive].
  pose proof (multiple_ge _ _ Hes Hcm ltac:(lia)) as Hle.
  destruct (malloc_request_fits s Hcs) as (Hreq & Hguard & Hcells).
  unfold BLI_stack_push_r. rewrite Hguard, andb_false_r.
  destruct (needs_chunk s) eqn:Hneed; cbn [top_chunk chunk_index elem_size
    chunk_size element_count mallocs frees].
  - (* a new chunk becomes the head *)
    rewrite Z.add_0_l, (size_t_small (elem_size s)) by lia.
    assert (Hold : contents s
                   = flat_map (fun c' => chunk_elems (Z.to_nat (elem_size s)) c'
                       (Z.to_nat (chunk_size s / elem_size s))) (top_chunk s)).
    { unfold contents. unfold needs_chunk in Hneed.
      destruct (top_chunk s) as [|c rest]; [reflexivity|]. simpl in Hneed.
      apply Z.eqb_eq in Hneed. rewrite Hneed. reflexivity. }
    assert (Hnew : forall n,
      contents {| elem_size := elem_size s; chunk_size := chunk_size s;
                  chunk_index := elem_size s; element_count := n;
                  top_chunk := malloc_chunk s :: top_chunk s;
                  mallocs := S (mallocs s); frees := frees s |}
      = slot (Z.to_nat (elem_size s)) (malloc_chunk s) 0 :: contents s).
    { intros n. unfold contents at 1.
      cbn [top_chunk chunk_index elem_size chunk_size].
      rewrite Z.div_same by lia. rewrite Hold. reflexivity. }
    eexists _, (malloc_chunk s), (top_chunk s).
    split; [f_equal; f_equal; f_equal; cbn; lia|].
    split; [reflexivity|].
    split; [|rewrite Hnew; cbn; repeat split; congruence || lia].
    constructor; cbn [top_chunk chunk_index elem_size chunk_size
      element_count mallocs frees]; try lia.
    + apply Z.mod_same; lia.
    + constructor; [|exact Hdata]. lia.
    + discriminate.
    + rewrite Hnew. cbn [length]. rewrite Hcount, size_t_succ.
      f_equal. lia.
    + simpl. lia.
  - (* the head chunk has room *)
    unfold needs_chunk in Hneed. apply orb_false_iff in Hneed.
    destruct Hneed as [Htop Hne].
    destruct (top_chunk s) as [|c rest] eqn:Etop; [discriminate|].
    apply Z.eqb_neq in Hne.
    pose proof (multiple_lt _ _ Hes Him _ Hcm ltac:(lia)) as Hroom.
    rewrite (size_t_small (chunk_index s + elem_size s)) by lia.
    assert (Hnew : forall n,
      contents {| elem_size := elem_size s; chunk_size := chunk_size s;
                  chunk_index := chunk_index s + elem_size s;
                  element_count := n;
                  top_chunk := c :: rest;
                  mallocs := mallocs s; frees := frees s |}
      = slot (Z.to_nat (elem_size s)) c
             (Z.to_nat (chunk_index s / elem_size s)) :: contents s).
    { intros n. unfold contents.
      cbn [top_chunk chunk_index elem_size chunk_size].
      rewrite Etop, multiple_succ_div by lia. reflexivity. }
    eexists _, c, rest.
    split; [f_equal; f_equal; f_equal; cbn; lia|].
    split; [reflexivity|].
    split; [|rewrite Hnew; cbn; repeat split; congruence || lia].
    constructor; cbn [top_chunk chunk_index elem_size chunk_size
      element_count mallocs frees]; try lia.
    + apply multiple_succ_mod; assumption.
    + exact Hdata.
    + discriminate.
    + rewrite Hnew. cbn [length]. rewrite Hcount, size_t_succ.
      f_equal. lia.
Qed.

(** Storing an element through the pointer to the top slot replaces the
    top element and nothing else. *)
Lemma store_top_spec s c rest v :
  wf s ->
  top_chunk s = c :: rest ->
  elem_size s <= chunk_index s ->
  Z.of_nat (length v) = elem_size s ->
  exists c',
    chunks_store (top_chunk s)
      {| p_chunk := chunk_id c; p_off := chunk_index s - elem_size s |} v
    = Ok (c' :: rest)
    /\ wf {| elem_size := elem_size s; chunk_size := chunk_size s;
             chunk_index := chunk_index s; element_count := element_count s;
             top_chunk := c' :: rest;
             mallocs := mallocs s; frees := frees s |}
    /\ contents {| elem_size := elem_size s; chunk_size := chunk_size s;
                   chunk_index := chunk_index s;
                   element_count := element_count s;
                   top_chunk := c' :: rest;
                   mallocs := mallocs s; frees := frees s |}
       = v :: tl (contents s).
Proof.
  intros [Hes Hcs Hcm Hidx Him Hdata Hnull Hcount Hlive] Etop Hge Hv.
  rewrite Etop in *.
  pose proof (Forall_inv Hdata) as Hlen. simpl in Hlen.
  set (E := Z.to_nat (elem_size s)).
  set (k := Z.to_nat ((chunk_index s - elem_size s) / elem_size s)).
  pose proof (multiple_pred_mod _ _ Hes Him) as Hpm.
  assert (Hk : (k * E)%nat = Z.to_nat (chunk_index s - elem_size s))
    by (apply multiple_slots; lia).
  assert (HK : Z.to_nat (chunk_index s / elem_size s) = S k)
    by (apply multiple_pred_div; assumption).
  assert (HE : length v = E) by (unfold E; lia).
  exists (mkChunk (chunk_id c) (mem_write (data c) (k * E) v)).
  assert (Hcont :
    contents {| elem_size := elem_size s; chunk_size := chunk_size s;
                chunk_index := chunk_index s;
                element_count := element_count s;
                top_chunk :=
                  mkChunk (chunk_id c) (mem_write (data c) (k * E) v) :: rest;
                mallocs := mallocs s; frees := frees s |}
    = v :: tl (contents s)).
  { unfold contents. cbn [top_chunk chunk_index elem_size chunk_size].
    rewrite Etop, HK. fold E. cbn [chunk_elems app tl].
    rewrite slot_write_same by lia.
    f_equal. f_equal. apply chunk_elems_ext. intros i Hi.
    destruct c as [id m]. apply slot_write_below; simpl in *; lia. }
  split; [|split; [|exact Hcont]].
  - cbn [chunks_store p_chunk p_off]. rewrite Nat.eqb_refl.
    unfold mem_store.
    replace ((0 <=? chunk_index s - elem_size s)
             && (chunk_index s - elem_size s + Z.of_nat (length v)
                 <=? Z.of_nat (length (data c)))) with true
      by (symmetry; apply andb_true_iff; split; apply Z.leb_le; lia).
    cbn [bind]. rewrite <- Hk. reflexivity.
  - constructor; cbn [top_chunk chunk_index elem_size chunk_size
      element_count mallocs frees]; try assumption; try lia.
    + constructor; [|exact (Forall_inv_tail Hdata)].
      cbn [data]. rewrite mem_write_length; lia.
    + discriminate.
    + rewrite Hcont, Hcount. unfold contents.
      cbn [top_chunk chunk_index elem_size chunk_size].
      rewrite Etop, HK. reflexivity.
Qed.

Lemma load_prefix m n :
  0 <= n <= Z.of_nat (length m) ->
  mem_load m 0 n = Ok (firstn (Z.to_nat n) m).
Proof.
  intros H. unfold mem_load.
  replace ((0 <=? 0) && (0 <=? n) && (0 + n <=? Z.of_nat (length m)))
    with true; [reflexivity|].
  symmetry. rewrite !andb_true_iff. repeat split; apply Z.leb_le; lia.
Qed.

(** [BLI_stack_push] on a well-formed stack always returns, and puts the
    first [elem_size] cells of the source on top. *)
Lemma push_spec s m :
  wf s ->
  elem_size s <= Z.of_nat (length m) ->
  exists s',
    BLI_stack_push s (Some m) = Ok s'
    /\ wf s'
    /\ contents s' = firstn (Z.to_nat (elem_size s)) m :: contents s
    /\ elem_size s' = elem_size s
    /\ chunk_size s' = chunk_size s
    /\ frees s' = frees s
    /\ mallocs s' = (if needs_chunk s then S (mallocs s) else mallocs s)
    /\ chunk_index s' = (if needs_chunk s then elem_size s
                         else chunk_index s + elem_size s).
Proof.
  intros Hwf Hm.
  destruct (push_r_spec s Hwf)
    as (s1 & c & rest & Hr & Etop & Hwf1 & Hes1 & Hcs1 & Hge & Hne & Htl
        & Hfr & Hma & Hix).
  pose proof (wf_es _ Hwf) as Hes.
  set (v := firstn (Z.to_nat (elem_size s)) m).
  assert (Hv : Z.of_nat (length v) = elem_size s1)
    by (unfold v; rewrite length_firstn; lia).
  destruct (store_top_spec s1 c rest v Hwf1 Etop ltac:(lia) Hv)
    as (c' & Hst & Hwf2 & Hcont).
  eexists. split.
  - unfold BLI_stack_push. rewrite Hr. cbn [bind].
    rewrite Hes1, load_prefix by lia. cbn [bind]. fold v.
    rewrite <- Hes1, Hst. cbn [bind]. reflexivity.
  - split; [exact Hwf2|]. rewrite Hcont, Htl.
    cbn [elem_size chunk_size frees mallocs chunk_index].
    repeat split; assumption.
Qed.

(** ** Pop *)

(** The element read by a pop that retracts the offset from [x]: it is the
    last of the slots below [x]. *)
Lemma retract_read es cs x c :
  0 < es -> cs < SIZE_MAX1 ->
  cs <= Z.of_nat (length (data c)) ->
  es <= x <= cs -> x mod es = 0 ->
  let k := Z.to_nat ((x - es) / es) in
  size_t (x - es) = x - es
  /\ mem_load (data c) (x - es) es = Ok (slot (Z.to_nat es) c k)
  /\ chunk_elems (Z.to_nat es) c (Z.to_nat (x / es))
     = slot (Z.to_nat es) c k :: chunk_elems (Z.to_nat es) c k
  /\ Z.of_nat (length (slot (Z.to_nat es) c k)) = es.
Proof.
  intros Hes Hcs Hlen Hx Hmul k.
  pose proof (multiple_pred_mod _ _ Hes Hmul) as Hpm.
  assert (Hk : (k * Z.to_nat es)%nat = Z.to_nat (x - es))
    by (apply multiple_slots; lia).
  split; [apply size_t_small; lia|].
  split; [|split].
  - unfold mem_load, slot.
    replace ((0 <=? x - es) && (0 <=? es)
             && (x - es + es <=? Z.of_nat (length (data c)))) with true.
    + rewrite Hk. reflexivity.
    + symmetry. rewrite !andb_true_iff. repeat split; apply Z.leb_le; lia.
  - rewrite (multiple_pred_div _ _ Hes Hmul) by lia. reflexivity.
  - rewrite slot_length; lia.
Qed.

Lemma store_dst buf d v n :
  dst_ok buf (Some d) n = true -> Z.of_nat (length v) = n ->
  mem_store buf d v = Ok (mem_write buf (Z.to_nat d) v).
Proof.
  unfold dst_ok, mem_store. intros H <-. rewrite H. reflexivity.
Qed.

(** [BLI_stack_pop] on a well-formed stack that holds [x :: xs]: it
    returns, copies [x] to the destination, and leaves [xs]. *)
Lemma pop_spec s buf dst x xs :
  wf s ->
  contents s = x :: xs ->
  dst_ok buf dst (elem_size s) = true ->
  exists s',
    BLI_stack_pop s buf dst = Ok (s', popped_into buf dst x)
    /\ wf s'
    /\ contents s' = xs
    /\ elem_size s' = elem_size s
    /\ chunk_size s' = chunk_size s
    /\ Z.of_nat (length x) = elem_size s
    /\ top_chunk s' <> []
    /\ mallocs s' = mallocs s
    /\ frees s' = (if chunk_index s =? 0 then S (frees s) else frees s)
    /\ chunk_index s'
       = (if chunk_index s =? 0 then chunk_size s else chunk_index s)
         - elem_size s.
Proof.
  intros [Hes Hcs Hcm Hidx Him Hdata Hnull Hcount Hlive] Hcont Hdst.
  pose proof (multiple_ge _ _ Hes Hcm ltac:(lia)) as Hle.
  unfold BLI_stack_pop.
  destruct (chunk_index s =? 0) eqn:Hz.
  - (* the head chunk is spent: free it and retract in its successor *)
    apply Z.eqb_eq in Hz.
    unfold contents in Hcont. rewrite Hz in Hcont.
    destruct (top_chunk s) as [|c0 [|c rest]] eqn:Etop;
      [discriminate Hcont | discriminate Hcont |].
    rewrite Z.div_0_l in Hcont by lia. cbn [Z.to_nat chunk_elems app flat_map]
      in Hcont.
    pose proof (Forall_inv (Forall_inv_tail Hdata)) as Hlen. simpl in Hlen.
    destruct (retract_read (elem_size s) (chunk_size s) (chunk_size s) c
                Hes ltac:(lia) Hlen ltac:(lia) Hcm)
      as (Hsz & Hload & Helems & Hxlen).
    rewrite Helems in Hcont. injection Hcont as Hx Hxs.
    cbn [bind top_chunk chunk_index elem_size chunk_size element_count
         mallocs frees].
    rewrite Hsz.
    eexists. split.
    + destruct dst as [d|]; [|reflexivity].
      rewrite Hload. cbn [bind].
      rewrite (store_dst buf d _ (elem_size s)) by assumption.
      cbn [bind popped_into]. rewrite Hx. reflexivity.
    + split.
      * constructor; cbn [top_chunk chunk_index elem_size chunk_size
          element_count mallocs frees]; try assumption; try lia.
        -- apply multiple_pred_mod; assumption.
        -- exact (Forall_inv_tail Hdata).
        -- discriminate.
        -- match goal with |- _ = size_t (Z.of_nat (length ?l)) =>
             replace l with xs by (symmetry; exact Hxs) end.
           rewrite Hcount. unfold contents.
           rewrite Etop, Hz, Z.div_0_l by lia.
           cbn [Z.to_nat chunk_elems app flat_map]. rewrite Helems.
           cbn [app]. rewrite Hxs, size_t_pred. f_equal. cbn [length]. lia.
        -- simpl in Hlive |- *. lia.
      * unfold contents at 1. cbn [top_chunk chunk_index elem_size chunk_size].
        rewrite <- Hx. repeat split; try assumption; try discriminate.
  - (* retract within the head chunk *)
    apply Z.eqb_neq in Hz.
    destruct (top_chunk s) as [|c rest] eqn:Etop;
      [exfalso; apply Hz, Hnull; reflexivity|].
    unfold contents in Hcont. rewrite Etop in Hcont.
    pose proof (Forall_inv Hdata) as Hlen. simpl in Hlen.
    pose proof (multiple_ge _ _ Hes Him ltac:(lia)) as Hge.
    destruct (retract_read (elem_size s) (chunk_size s) (chunk_index s) c
                Hes ltac:(lia) Hlen ltac:(lia) Him)
      as (Hsz & Hload & Helems & Hxlen).
    rewrite Helems in Hcont. injection Hcont as Hx Hxs.
    cbn [bind top_chunk chunk_index elem_size chunk_size element_count
         mallocs frees].
    rewrite Hsz, Etop.
    eexists. split.
    + destruct dst as [d|]; [|reflexivity].
      rewrite Hload. cbn [bind].
      rewrite (store_dst buf d _ (elem_size s)) by assumption.
      cbn [bind popped_into]. rewrite Hx. reflexivity.
    + split.
      * constructor; cbn [top_chunk chunk_index elem_size chunk_size
          element_count mallocs frees]; try assumption; try lia.
        -- apply multiple_pred_mod; assumption.
        -- discriminate.
        -- match goal with |- _ = size_t (Z.of_nat (length ?l)) =>
             replace l with xs by (symmetry; exact Hxs) end.
           rewrite Hcount. unfold contents. rewrite Etop, Helems.
           cbn [app]. rewrite Hxs, size_t_pred. f_equal. cbn [length]. lia.
      * unfold contents at 1. cbn [top_chunk chunk_index elem_size chunk_size].
        rewrite <- Hx. repeat split; try assumption; try discriminate.
Qed.

(** A stack that is not empty holds an element. *)
Lemma nonempty_contents s :
  wf s -> BLI_stack_is_empty s = false ->
  exists x xs, contents s = x :: xs.
Proof.
  intros Hwf He. unfold BLI_stack_is_empty in He.
  apply Z.eqb_neq in He. rewrite (wf_count _ Hwf) in He.
  destruct (contents s) as [|x xs]; [|eauto].
  exfalso. apply He. reflexivity.
Qed.

(** ** Discard *)

(** [BLI_stack_discard] is [BLI_stack_pop] with a null destination. *)
Lemma pop_null_discard s buf :
  BLI_stack_pop s buf None = (s' <- BLI_stack_discard s ;; Ok (s', buf)).
Proof.
  unfold BLI_stack_pop, BLI_stack_discard.
  destruct (chunk_index s =? 0); [destruct (top_chunk s)|]; reflexivity.
Qed.

Lemma discard_spec s x xs :
  wf s ->
  contents s = x :: xs ->
  exists s',
    BLI_stack_discard s = Ok s'
    /\ wf s'
    /\ contents s' = xs
    /\ elem_size s' = elem_size s
    /\ chunk_size s' = chunk_size s.
Proof.
  intros Hwf Hc.
  destruct (pop_spec s [] None x xs Hwf Hc eq_refl)
    as (s' & Hpop & Hwf' & Hc' & He & Hs & _).
  rewrite pop_null_discard in Hpop.
  destruct (BLI_stack_discard s) as [s''| |]; try discriminate.
  injection Hpop as ->. eauto 6.
Qed.

(** ** Clear *)

Lemma free_chunks_count cs freed :
  free_chunks cs freed = (freed + length cs)%nat.
Proof.
  revert freed. induction cs as [|c cs IH]; intros freed; simpl.
  - lia.
  - rewrite IH. lia.
Qed.

Lemma clear_spec s :
  wf s ->
  wf (BLI_stack_clear s)
  /\ contents (BLI_stack_clear s) = []
  /\ elem_size (BLI_stack_clear s) = elem_size s
  /\ chunk_size (BLI_stack_clear s) = chunk_size s.
Proof.
  intros [Hes Hcs Hcm Hidx Him Hdata Hnull Hcount Hlive].
  split; [|repeat split].
  constructor; cbn [BLI_stack_clear top_chunk chunk_index elem_size
    chunk_size element_count mallocs frees]; try assumption; try lia.
  - apply Z.mod_0_l. lia.
  - constructor.
  - reflexivity.
  - rewrite free_chunks_count. simpl. lia.
Qed.

(** ** Popping several elements *)

Lemma mem_write_nil m off : mem_write m off [] = m.
Proof.
  unfold mem_write. cbn [length app]. rewrite Nat.add_0_r.
  apply firstn_skipn.
Qed.

Lemma pop_n_loop_spec xs :
  forall s buf d i rest,
    wf s ->
    contents s = xs ++ rest ->
    0 <= d -> 0 <= i ->
    d + (i + Z.of_nat (length xs)) * elem_size s <= Z.of_nat (length buf) ->
    Z.of_nat (length buf) < SIZE_MAX1 ->
    exists s',
      pop_n_loop (length xs) i s buf d
      = Ok (s', mem_write buf (Z.to_nat (d + i * elem_size s)) (concat xs))
      /\ wf s'
      /\ contents s' = rest
      /\ elem_size s' = elem_size s
      /\ chunk_size s' = chunk_size s
      /\ Z.of_nat (length (concat xs))
         = Z.of_nat (length xs) * elem_size s.
Proof.
  induction xs as [|x xs IH]; intros s buf d i rest Hwf Hc Hd Hi Hfit Hbuf.
  - exists s. cbn [length pop_n_loop concat]. rewrite mem_write_nil.
    conjuncts; try assumption; reflexivity.
  - pose proof (wf_es _ Hwf) as Hes.
    cbn [length] in Hfit. rewrite Nat2Z.inj_succ in Hfit.
    assert (Hoff : size_t (i * elem_size s) = i * elem_size s)
      by (apply size_t_small; nia).
    assert (Hdst : dst_ok buf (Some (d + i * elem_size s)) (elem_size s)
                   = true).
    { unfold dst_ok. apply andb_true_iff. split; apply Z.leb_le; nia. }
    destruct (pop_spec s buf _ x (xs ++ rest) Hwf Hc Hdst)
      as (s1 & Hpop & Hwf1 & Hc1 & He1 & Hs1 & Hx & _).
    cbn [popped_into] in Hpop.
    set (buf1 := mem_write buf (Z.to_nat (d + i * elem_size s)) x) in *.
    assert (Hlen1 : length buf1 = length buf)
      by (apply mem_write_length; nia).
    destruct (IH s1 buf1 d (i + 1) rest Hwf1 Hc1 Hd ltac:(lia))
      as (s2 & Hloop & Hwf2 & Hc2 & He2 & Hs2 & Hcat).
    { rewrite He1, Hlen1. lia. }
    { rewrite Hlen1. exact Hbuf. }
    exists s2. cbn [length pop_n_loop]. rewrite Hoff, Hpop. cbn [bind].
    rewrite Hloop, He1.
    assert (Hcat' : Z.of_nat (length (concat (x :: xs)))
                    = Z.of_nat (length (x :: xs)) * elem_size s).
    { cbn [concat length]. rewrite length_app. rewrite He1 in Hcat. lia. }
    conjuncts; try congruence; try exact Hcat'.
    f_equal. f_equal. cbn [concat]. unfold buf1.
    replace (Z.to_nat (d + (i + 1) * elem_size s))
      with (Z.to_nat (d + i * elem_size s) + length x)%nat by nia.
    apply mem_write_adjacent_after. rewrite He1 in Hcat. nia.
Qed.

Lemma pop_n_reverse_loop_spec xs :
  forall s buf d rest,
    wf s ->
    contents s = xs ++ rest ->
    0 <= d ->
    d + Z.of_nat (length xs) * elem_size s <= Z.of_nat (length buf) ->
    Z.of_nat (length buf) < SIZE_MAX1 ->
    exists s',
      pop_n_reverse_loop (length xs) s buf d
      = Ok (s', mem_write buf (Z.to_nat d) (concat (rev xs)))
      /\ wf s'
      /\ contents s' = rest
      /\ elem_size s' = elem_size s
      /\ chunk_size s' = chunk_size s
      /\ Z.of_nat (length (concat (rev xs)))
         = Z.of_nat (length xs) * elem_size s.
Proof.
  induction xs as [|x xs IH]; intros s buf d rest Hwf Hc Hd Hfit Hbuf.
  - exists s. cbn [length pop_n_reverse_loop concat rev].
    rewrite mem_write_nil. conjuncts; try assumption; reflexivity.
  - pose proof (wf_es _ Hwf) as Hes.
    cbn [length] in Hfit. rewrite Nat2Z.inj_succ in Hfit.
    set (o := Z.of_nat (length xs) * elem_size s) in *.
    assert (Hoff : size_t o = o) by (apply size_t_small; unfold o; nia).
    assert (Hdst : dst_ok buf (Some (d + o)) (elem_size s) = true).
    { unfold dst_ok. apply andb_true_iff. split; apply Z.leb_le;
        unfold o; nia. }
    destruct (pop_spec s buf _ x (xs ++ rest) Hwf Hc Hdst)
      as (s1 & Hpop & Hwf1 & Hc1 & He1 & Hs1 & Hx & _).
    cbn [popped_into] in Hpop.
    set (buf1 := mem_write buf (Z.to_nat (d + o)) x) in *.
    assert (Hlen1 : length buf1 = length buf)
      by (apply mem_write_length; unfold o; nia).
    destruct (IH s1 buf1 d rest Hwf1 Hc1 Hd)
      as (s2 & Hloop & Hwf2 & Hc2 & He2 & Hs2 & Hcat).
    { rewrite He1, Hlen1. fold o. lia. }
    { rewrite Hlen1. exact Hbuf. }
    rewrite He1 in Hcat. fold o in Hcat.
    exists s2. cbn [length pop_n_reverse_loop]. fold o.
    rewrite Hoff, Hpop. cbn [bind]. rewrite Hloop.
    assert (Hrev : concat (rev (x :: xs)) = concat (rev xs) ++ x).
    { cbn [rev]. rewrite concat_app. cbn [concat]. now rewrite app_nil_r. }
    conjuncts; try congruence.
    + f_equal. f_equal. rewrite Hrev. unfold buf1.
      replace (Z.to_nat (d + o))
        with (Z.to_nat d + length (concat (rev xs)))%nat by lia.
      apply mem_write_adjacent_before. unfold o in *. nia.
    + rewrite Hrev, length_app. cbn [length]. unfold o in *. lia.
Qed.

(** ** Creation *)

(** A fresh stack whose chunk capacity is a positive multiple of the
    element size, and fits the allocation request, is well-formed. *)
Lemma new_ex_spec es cs s0 :
  BLI_stack_new_ex es cs = Ok s0 ->
  0 < chunk_size s0 ->
  chunk_size s0 mod es = 0 ->
  sizeof_StackChunk + chunk_size s0 - 1 < SIZE_MAX1 ->
  wf s0
  /\ contents s0 = []
  /\ elem_size s0 = es
  /\ top_chunk s0 = []
  /\ mallocs s0 = O /\ frees s0 = O.
Proof.
  intros Hnew Hpos Hmul Hreq. unfold BLI_stack_new_ex in Hnew.
  destruct (es >? 0) eqn:Hes; [|discriminate]. apply Z.gtb_lt in Hes.
  injection Hnew as <-.
  cbn [chunk_size] in *. unfold sizeof_StackChunk in Hreq.
  conjuncts; try reflexivity.
  constructor; cbn [top_chunk chunk_index elem_size chunk_size
    element_count mallocs frees]; try lia; try reflexivity; try assumption.
  constructor.
Qed.

(** ** Calls that meet their obligations *)

Lemma size_t_le z : 0 <= z -> size_t z <= z.
Proof. intros H. unfold size_t. apply Z.mod_le; [exact H | reflexivity]. Qed.

(** The [n] topmost elements of a stack that counts at least [n]. *)
Lemma top_elements s n :
  wf s -> 0 <= n <= BLI_stack_count s ->
  exists xs rest,
    contents s = xs ++ rest /\ length xs = Z.to_nat n.
Proof.
  intros Hwf Hn. unfold BLI_stack_count in Hn.
  rewrite (wf_count _ Hwf) in Hn.
  pose proof (size_t_le (Z.of_nat (length (contents s))) ltac:(lia)).
  exists (firstn (Z.to_nat n) (contents s)),
         (skipn (Z.to_nat n) (contents s)).
  rewrite firstn_skipn, length_firstn. split; [reflexivity | lia].
Qed.

(** A call that meets its obligations returns, and keeps the stack
    well-formed. *)
Lemma exec_spec o s :
  wf s -> pre o s = true ->
  exists s',
    exec o s = Ok s'
    /\ wf s'
    /\ elem_size s' = elem_size s
    /\ chunk_size s' = chunk_size s.
Proof.
  intros Hwf Hpre. destruct o as [src| |buf dst| |buf dst n|buf dst n|];
    cbn [exec pre] in *.
  - apply Z.leb_le in Hpre.
    destruct (push_spec s src Hwf Hpre) as (s' & H1 & H2 & _ & H3 & H4 & _).
    eauto.
  - destruct (push_r_spec s Hwf) as (s' & c & rest & H1 & _ & H2 & H3 & H4 & _).
    exists s'. rewrite H1. cbn [bind]. auto.
  - apply andb_true_iff in Hpre. destruct Hpre as [Hne Hdst].
    apply negb_true_iff in Hne.
    destruct (nonempty_contents s Hwf Hne) as (x & xs & Hc).
    destruct (pop_spec s buf dst x xs Hwf Hc Hdst)
      as (s' & H1 & H2 & _ & H3 & H4 & _).
    exists s'. rewrite H1. cbn [bind]. auto.
  - apply negb_true_iff in Hpre.
    destruct (nonempty_contents s Hwf Hpre) as (x & xs & Hc).
    destruct (discard_spec s x xs Hwf Hc) as (s' & H1 & H2 & _ & H3 & H4).
    eauto.
  - destruct dst as [d|]; [|discriminate].
    rewrite !andb_true_iff in Hpre.
    destruct Hpre as [[[[[H0 H32] Hn] Hd] Hfit] Hbuf].
    apply Z.leb_le in H0, Hn, Hd, Hfit. apply Z.ltb_lt in Hbuf.
    destruct (top_elements s n Hwf ltac:(lia)) as (xs & rest & Hc & Hlen).
    destruct (pop_n_loop_spec xs s buf d 0 rest Hwf Hc Hd ltac:(lia))
      as (s' & H1 & H2 & _ & H3 & H4 & _);
      [rewrite Hlen, Z2Nat.id by lia; lia | assumption |].
    exists s'. unfold BLI_stack_pop_n. rewrite <- Hlen, H1. cbn [bind]. auto.
  - destruct dst as [d|]; [|discriminate].
    rewrite !andb_true_iff in Hpre.
    destruct Hpre as [[[[[H0 H32] Hn] Hd] Hfit] Hbuf].
    apply Z.leb_le in H0, Hn, Hd, Hfit. apply Z.ltb_lt in Hbuf.
    destruct (top_elements s n Hwf ltac:(lia)) as (xs & rest & Hc & Hlen).
    destruct (pop_n_reverse_loop_spec xs s buf d rest Hwf Hc Hd)
      as (s' & H1 & H2 & _ & H3 & H4 & _);
      [rewrite Hlen, Z2Nat.id by lia; lia | assumption |].
    exists s'. unfold BLI_stack_pop_n_reverse.
    rewrite <- Hlen, H1. cbn [bind]. auto.
  - destruct (clear_spec s Hwf) as (H1 & _ & H2 & H3). eauto.
Qed.

(** Every state reached from a well-formed stack by calls that meet their
    obligations is well-formed. *)
Lemma reachable_wf s0 s :
  wf s0 -> reachable s0 s ->
  wf s /\ elem_size s = elem_size s0 /\ chunk_size s = chunk_size s0.
Proof.
  intros Hwf0 Hr. induction Hr as [|s o s' Hr IH Hpre Hex].
  - auto.
  - destruct IH as (Hwf & He & Hc).
    destruct (exec_spec o s Hwf Hpre) as (s1 & H1 & H2 & H3 & H4).
    rewrite Hex in H1. injection H1 as H1. subst s1.
    conjuncts; [assumption | congruence | congruence].
Qed.

(** ** The offset of the head chunk, under arbitrary calls *)

Lemma wf_shape s : wf s -> shape s.
Proof.
  intros [Hes Hcs Hcm Hidx Him _ _ _ _].
  constructor; try assumption; [lia | split; assumption].
Qed.

(** [shape] only looks at the sizes and the offset. *)
Lemma shape_fields s s' :
  elem_size s' = elem_size s -> chunk_size s' = chunk_size s ->
  chunk_index s' = chunk_index s -> shape s -> shape s'.
Proof.
  intros He Hc Hi [H1 H2 H3 [H4 H5]].
  constructor; unfold index_ok; rewrite ?He, ?Hc, ?Hi; auto.
Qed.

(** The offset after [chunk_index += elem_size]. *)
Lemma shape_advance s s' :
  shape s ->
  elem_size s' = elem_size s -> chunk_size s' = chunk_size s ->
  chunk_index s'
  = size_t ((if needs_chunk s then 0 else chunk_index s) + elem_size s) ->
  shape s'.
Proof.
  intros [Hes Hcs Hcm [Him Hidx]] He Hc Hi.
  pose proof (multiple_ge _ _ Hes Hcm ltac:(lia)) as Hle.
  assert (Hnew : chunk_index s' mod elem_size s = 0
                 /\ 0 <= chunk_index s' <= chunk_size s).
  { rewrite Hi. destruct (needs_chunk s) eqn:Hneed.
    - rewrite Z.add_0_l, size_t_small by lia.
      split; [apply Z.mod_same; lia | lia].
    - unfold needs_chunk in Hneed. apply orb_false_iff in Hneed.
      destruct Hneed as [_ Hne]. apply Z.eqb_neq in Hne.
      pose proof (multiple_lt _ _ Hes Him _ Hcm ltac:(lia)) as Hroom.
      rewrite size_t_small by lia.
      split; [apply multiple_succ_mod; assumption | lia]. }
  constructor; unfold index_ok; rewrite ?He, ?Hc; tauto.
Qed.

(** The offset after the retraction of a pop or a discard. *)
Lemma shape_retract s s' :
  shape s ->
  elem_size s' = elem_size s -> chunk_size s' = chunk_size s ->
  chunk_index s'
  = size_t ((if chunk_index s =? 0 then chunk_size s else chunk_index s)
            - elem_size s) ->
  shape s'.
Proof.
  intros [Hes Hcs Hcm [Him Hidx]] He Hc Hi.
  pose proof (multiple_ge _ _ Hes Hcm ltac:(lia)) as Hle.
  assert (Hnew : chunk_index s' mod elem_size s = 0
                 /\ 0 <= chunk_index s' <= chunk_size s).
  { rewrite Hi. destruct (chunk_index s =? 0) eqn:Hz.
    - rewrite size_t_small by lia.
      split; [apply multiple_pred_mod; assumption | lia].
    - apply Z.eqb_neq in Hz.
      pose proof (multiple_ge _ _ Hes Him ltac:(lia)) as Hge.
      rewrite size_t_small by lia.
      split; [apply multiple_pred_mod; assumption | lia]. }
  constructor; unfold index_ok; rewrite ?He, ?Hc; tauto.
Qed.

Lemma push_r_shape s s' p :
  shape s -> BLI_stack_push_r s = Ok (s', p) -> shape s'.
Proof.
  intros Hs H.
  destruct (push_r_inv _ _ _ H) as (He & Hc & Hi & _).
  exact (shape_advance s s' Hs He Hc Hi).
Qed.

Lemma push_shape s src s' :
  shape s -> BLI_stack_push s src = Ok s' -> shape s'.
Proof.
  intros Hs H. unfold BLI_stack_push in H.
  destruct src as [m|]; [|discriminate].
  destruct (BLI_stack_push_r s) as [[s1 dst]| |] eqn:Hr; try discriminate.
  cbn [bind] in H.
  destruct (mem_load m 0 (elem_size s1)) as [v| |]; try discriminate.
  cbn [bind] in H.
  destruct (chunks_store (top_chunk s1) dst v) as [cs| |]; try discriminate.
  injection H as <-.
  apply (shape_fields s1); [reflexivity .. |].
  exact (push_r_shape s s1 dst Hs Hr).
Qed.

Lemma discard_shape s s' :
  shape s -> BLI_stack_discard s = Ok s' -> shape s'.
Proof.
  intros Hs H. unfold BLI_stack_discard in H.
  destruct (chunk_index s =? 0) eqn:Hz.
  - destruct (top_chunk s) as [|c next]; [discriminate|].
    injection H as <-.
    apply (shape_retract s); cbn; rewrite ?Hz; auto.
  - injection H as <-.
    apply (shape_retract s); cbn; rewrite ?Hz; auto.
Qed.

Lemma pop_state s buf dst s' buf' :
  BLI_stack_pop s buf dst = Ok (s', buf') -> BLI_stack_discard s = Ok s'.
Proof.
  unfold BLI_stack_pop, BLI_stack_discard.
  destruct (if chunk_index s =? 0 then _ else _) as [s1| |];
    cbn [bind]; try discriminate.
  destruct dst as [d|]; [|congruence].
  cbn [top_chunk]. destruct (top_chunk s1) as [|c rest]; [discriminate|].
  destruct (mem_load _ _ _) as [v| |]; cbn [bind]; try discriminate.
  destruct (mem_store buf d v) as [b| |]; cbn [bind]; congruence.
Qed.

Lemma pop_shape s buf dst s' buf' :
  shape s -> BLI_stack_pop s buf dst = Ok (s', buf') -> shape s'.
Proof.
  intros Hs H. apply (discard_shape s); [exact Hs|].
  exact (pop_state _ _ _ _ _ H).
Qed.

Lemma pop_n_loop_shape k :
  forall i s buf d s' buf',
    shape s -> pop_n_loop k i s buf d = Ok (s', buf') -> shape s'.
Proof.
  induction k as [|k IH]; intros i s buf d s' buf' Hs H; cbn in H.
  - injection H as <- _. exact Hs.
  - destruct (BLI_stack_pop s buf _) as [[s1 buf1]| |] eqn:Hp;
      try discriminate.
    cbn [bind] in H. apply (IH _ _ _ _ _ _ (pop_shape _ _ _ _ _ Hs Hp) H).
Qed.

Lemma pop_n_reverse_loop_shape k :
  forall s buf d s' buf',
    shape s -> pop_n_reverse_loop k s buf d = Ok (s', buf') -> shape s'.
Proof.
  induction k as [|k IH]; intros s buf d s' buf' Hs H; cbn in H.
  - injection H as <- _. exact Hs.
  - destruct (BLI_stack_pop s buf _) as [[s1 buf1]| |] eqn:Hp;
      try discriminate.
    cbn [bind] in H. apply (IH _ _ _ _ _ (pop_shape _ _ _ _ _ Hs Hp) H).
Qed.

Lemma clear_shape s : shape s -> shape (BLI_stack_clear s).
Proof.
  intros [Hes Hcs Hcm _]. constructor; try assumption.
  split; cbn; [reflexivity | lia].
Qed.

Lemma exec_shape o s s' : shape s -> exec o s = Ok s' -> shape s'.
Proof.
  intros Hs H. destruct o as [src| |buf dst| |buf dst n|buf dst n|];
    cbn [exec] in H.
  - exact (push_shape _ _ _ Hs H).
  - destruct (BLI_stack_push_r s) as [[s1 p]| |] eqn:Hr; try discriminate.
    injection H as <-. exact (push_r_shape _ _ _ Hs Hr).
  - destruct (BLI_stack_pop s buf dst) as [[s1 b]| |] eqn:Hp;
      try discriminate.
    injection H as <-. exact (pop_shape _ _ _ _ _ Hs Hp).
  - exact (discard_shape _ _ Hs H).
  - destruct (BLI_stack_pop_n s buf dst n) as [[s1 b]| |] eqn:Hp;
      try discriminate.
    injection H as <-. unfold BLI_stack_pop_n in Hp.
    destruct dst as [d|]; [|discriminate].
    exact (pop_n_loop_shape _ _ _ _ _ _ _ Hs Hp).
  - destruct (BLI_stack_pop_n_reverse s buf dst n) as [[s1 b]| |] eqn:Hp;
      try discriminate.
    injection H as <-. unfold BLI_stack_pop_n_reverse in Hp.
    destruct dst as [d|]; [|discriminate].
    exact (pop_n_reverse_loop_shape _ _ _ _ _ _ Hs Hp).
  - injection H as <-. exact (clear_shape _ Hs).
Qed.

Lemma run_shape ops :
  forall s s', shape s -> run ops s = Ok s' -> shape s'.
Proof.
  induction ops as [|o ops IH]; intros s s' Hs H; cbn in H.
  - injection H as <-. exact Hs.
  - destruct (exec o s) as [s1| |] eqn:Hx; try discriminate.
    cbn [bind] in H. exact (IH _ _ (exec_shape _ _ _ Hs Hx) H).
Qed.

(** ** Sequences of pushes and pops *)

Lemma mem_write_all m v :
  length v = length m -> mem_write m 0 v = v.
Proof.
  intros H. unfold mem_write. cbn [firstn app Nat.add].
  rewrite H, skipn_all. apply app_nil_r.
Qed.

Lemma push_all_spec vs :
  forall s,
    wf s ->
    Forall (fun v => Z.of_nat (length v) = elem_size s) vs ->
    exists s',
      push_all vs s = Ok s'
      /\ wf s'
      /\ contents s' = rev vs ++ contents s
      /\ elem_size s' = elem_size s
      /\ chunk_size s' = chunk_size s
      /\ frees s' = frees s.
Proof.
  induction vs as [|v vs IH]; intros s Hwf Hall.
  - exists s. cbn. auto 6.
  - pose proof (Forall_inv Hall) as Hv. cbn beta in Hv.
    destruct (push_spec s v Hwf ltac:(lia))
      as (s1 & Hp & Hwf1 & Hc1 & He1 & Hs1 & Hf1 & _).
    rewrite firstn_all2 in Hc1 by lia.
    destruct (IH s1 Hwf1) as (s2 & Hq & Hwf2 & Hc2 & He2 & Hs2 & Hf2).
    { rewrite He1. exact (Forall_inv_tail Hall). }
    exists s2. cbn [push_all]. rewrite Hp. cbn [bind]. rewrite Hq.
    conjuncts; try congruence.
    rewrite Hc2, Hc1. cbn [rev]. now rewrite <- app_assoc.
Qed.

Lemma pop_values_spec xs :
  forall s rest,
    wf s ->
    contents s = xs ++ rest ->
    exists s',
      pop_values (length xs) s = Ok (s', xs)
      /\ wf s'
      /\ contents s' = rest
      /\ elem_size s' = elem_size s
      /\ chunk_size s' = chunk_size s
      /\ mallocs s' = mallocs s
      /\ (xs <> [] -> top_chunk s' <> []).
Proof.
  induction xs as [|x xs IH]; intros s rest Hwf Hc.
  - exists s. cbn. conjuncts; auto; congruence.
  - pose proof (wf_es _ Hwf) as Hes.
    assert (Hdst : dst_ok (repeat Undef (Z.to_nat (elem_size s))) (Some 0)
                     (elem_size s) = true).
    { unfold dst_ok. rewrite repeat_length.
      apply andb_true_iff. split; apply Z.leb_le; lia. }
    destruct (pop_spec s _ (Some 0) x (xs ++ rest) Hwf Hc Hdst)
      as (s1 & Hp & Hwf1 & Hc1 & He1 & Hs1 & Hx & Htop & Hm & _).
    cbn [popped_into] in Hp.
    rewrite mem_write_all in Hp by (rewrite repeat_length; lia).
    destruct (IH s1 rest Hwf1 Hc1)
      as (s2 & Hq & Hwf2 & Hc2 & He2 & Hs2 & Hm2 & Htop2).
    exists s2. cbn [length pop_values]. rewrite Hp. cbn [bind].
    rewrite Hq. cbn [bind].
    conjuncts; try congruence.
    intros _. destruct xs as [|x' xs]; [|apply Htop2; discriminate].
    cbn in Hq. injection Hq as <-. exact Htop.
Qed.

(** ** Calls with arbitrary arguments *)

Lemma mem_store_length m off v d :
  mem_store m off v = Ok d -> length d = length m.
Proof.
  unfold mem_store. intros H.
  destruct ((0 <=? off) && (off + Z.of_nat (length v) <=? Z.of_nat (length m)))
    eqn:Hb; [|discriminate].
  injection H as <-. apply andb_true_iff in Hb. destruct Hb as [H0 H1].
  apply Z.leb_le in H0, H1. apply mem_write_length. lia.
Qed.

Lemma chunks_store_length cs :
  forall p v cs', chunks_store cs p v = Ok cs' -> length cs' = length cs.
Proof.
  induction cs as [|c cs IH]; intros p v cs' H; cbn [chunks_store] in H.
  - discriminate.
  - destruct (Nat.eqb (chunk_id c) (p_chunk p)).
    + destruct (mem_store (data c) (p_off p) v) as [d| |]; try discriminate.
      injection H as <-. reflexivity.
    + destruct (chunks_store cs p v) as [r| |] eqn:Hr; try discriminate.
      injection H as <-. cbn [length]. f_equal. exact (IH _ _ _ Hr).
Qed.

(** A store through a pointer keeps the size of every block. *)
Lemma chunks_store_data bound cs :
  forall p v cs',
    chunks_store cs p v = Ok cs' ->
    Forall (fun c => bound <= Z.of_nat (length (data c))) cs ->
    Forall (fun c => bound <= Z.of_nat (length (data c))) cs'.
Proof.
  induction cs as [|c cs IH]; intros p v cs' H Hall; cbn [chunks_store] in H.
  - discriminate.
  - destruct (Nat.eqb (chunk_id c) (p_chunk p)).
    + destruct (mem_store (data c) (p_off p) v) as [d| |] eqn:Hst;
        try discriminate.
      injection H as <-. constructor; [|exact (Forall_inv_tail Hall)].
      cbn [data]. rewrite (mem_store_length _ _ _ _ Hst).
      exact (Forall_inv Hall).
    + destruct (chunks_store cs p v) as [r| |] eqn:Hr; try discriminate.
      injection H as <-.
      constructor; [exact (Forall_inv Hall)|].
      exact (IH _ _ _ Hr (Forall_inv_tail Hall)).
Qed.

(** The stack that [BLI_stack_pop_n] and [BLI_stack_pop_n_reverse] leave
    is the one that as many calls of [BLI_stack_discard] leave. *)
Lemma pop_n_loop_discards k :
  forall i s buf d s' buf',
    pop_n_loop k i s buf d = Ok (s', buf') ->
    run (repeat OpDiscard k) s = Ok s'.
Proof.
  induction k as [|k IH]; intros i s buf d s' buf' H;
    cbn [pop_n_loop repeat run exec] in *.
  - congruence.
  - destruct (BLI_stack_pop s buf _) as [[s1 buf1]| |] eqn:Hp;
      try discriminate.
    cbn [bind] in H. rewrite (pop_state _ _ _ _ _ Hp). cbn [bind].
    exact (IH _ _ _ _ _ _ H).
Qed.

Lemma pop_n_reverse_loop_discards k :
  forall s buf d s' buf',
    pop_n_reverse_loop k s buf d = Ok (s', buf') ->
    run (repeat OpDiscard k) s = Ok s'.
Proof.
  induction k as [|k IH]; intros s buf d s' buf' H;
    cbn [pop_n_reverse_loop repeat run exec] in *.
  - congruence.
  - destruct (BLI_stack_pop s buf _) as [[s1 buf1]| |] eqn:Hp;
      try discriminate.
    cbn [bind] in H. rewrite (pop_state _ _ _ _ _ Hp). cbn [bind].
    exact (IH _ _ _ _ _ H).
Qed.

(** What a call of [BLI_stack_push] that returns has done to the fields
    other than the chunk list. *)
Lemma push_inv s src s' :
  BLI_stack_push s src = Ok s' ->
  exists s1 p m v,
    src = Some m
    /\ BLI_stack_push_r s = Ok (s1, p)
    /\ mem_load m 0 (elem_size s1) = Ok v
    /\ chunks_store (top_chunk s1) p v = Ok (top_chunk s')
    /\ elem_size s' = elem_size s1
    /\ chunk_size s' = chunk_size s1
    /\ chunk_index s' = chunk_index s1
    /\ element_count s' = element_count s1
    /\ mallocs s' = mallocs s1
    /\ frees s' = frees s1.
Proof.
  unfold BLI_stack_push. intros H.
  destruct src as [m|]; [|discriminate].
  destruct (BLI_stack_push_r s) as [[s1 p]| |]; try discriminate.
  cbn [bind] in H.
  destruct (mem_load m 0 (elem_size s1)) as [v| |] eqn:Hl; try discriminate.
  cbn [bind] in H.
  destruct (chunks_store (top_chunk s1) p v) as [cs1| |] eqn:Hst;
    try discriminate.
  injection H as <-. exists s1, p, m, v. cbn.
  conjuncts; try reflexivity; assumption.
Qed.

(** What a call of [BLI_stack_discard] that returns has done. *)
Lemma discard_inv s s' :
  BLI_stack_discard s = Ok s' ->
  elem_size s' = elem_size s
  /\ chunk_size s' = chunk_size s
  /\ chunk_index s'
     = size_t ((if chunk_index s =? 0 then chunk_size s else chunk_index s)
               - elem_size s)
  /\ element_count s' = size_t (element_count s - 1)
  /\ mallocs s' = mallocs s
  /\ (if chunk_index s =? 0
      then exists c, top_chunk s = c :: top_chunk s'
                     /\ frees s' = S (frees s)
      else top_chunk s' = top_chunk s /\ frees s' = frees s).
Proof.
  unfold BLI_stack_discard. intros H.
  destruct (chunk_index s =? 0).
  - destruct (top_chunk s) as [|c next]; [discriminate|].
    injection H as <-. cbn. conjuncts; auto. eauto.
  - injection H as <-. cbn. conjuncts; auto.
Qed.

Lemma push_r_sound s s' p :
  sound s -> BLI_stack_push_r s = Ok (s', p) -> sound s'.
Proof.
  intros [Hsh Hreq Hdata Hcount] H.
  pose proof (push_r_shape _ _ _ Hsh H) as Hsh'.
  destruct (push_r_inv _ _ _ H) as (He & Hc & _ & Hn & Htop & _).
  pose proof (shape_cs _ Hsh) as Hcs.
  constructor; rewrite ?Hc, ?Hn, ?Htop; try assumption.
  - destruct (needs_chunk s); [|exact Hdata].
    constructor; [|exact Hdata].
    destruct (malloc_request_fits s ltac:(lia)) as (_ & _ & Hcells). lia.
  - apply size_t_range.
Qed.

Lemma push_sound s src s' :
  sound s -> BLI_stack_push s src = Ok s' -> sound s'.
Proof.
  intros Hs H.
  destruct (push_inv _ _ _ H)
    as (s1 & p & m & v & _ & Hr & _ & Hst & He & Hc & Hi & Hn & _).
  destruct (push_r_sound _ _ _ Hs Hr) as [Hsh Hreq Hdata Hcount].
  constructor; rewrite ?Hc, ?Hn; try assumption.
  - exact (shape_fields s1 s' He Hc Hi Hsh).
  - exact (chunks_store_data _ _ _ _ _ Hst Hdata).
Qed.

Lemma discard_sound s s' :
  sound s -> BLI_stack_discard s = Ok s' -> sound s'.
Proof.
  intros [Hsh Hreq Hdata Hcount] H.
  pose proof (discard_shape _ _ Hsh H) as Hsh'.
  destruct (discard_inv _ _ H) as (_ & Hc & _ & Hn & _ & Htop).
  constructor; rewrite ?Hc, ?Hn; try assumption.
  - destruct (chunk_index s =? 0).
    + destruct Htop as (c & Htop & _). rewrite Htop in Hdata.
      exact (Forall_inv_tail Hdata).
    + destruct Htop as (Htop & _). rewrite Htop. exact Hdata.
  - apply size_t_range.
Qed.

Lemma discards_sound k :
  forall s s',
    sound s -> run (repeat OpDiscard k) s = Ok s' -> sound s'.
Proof.
  induction k as [|k IH]; intros s s' Hs H; cbn [repeat run exec] in H.
  - injection H as <-. exact Hs.
  - destruct (BLI_stack_discard s) as [s1| |] eqn:Hd; try discriminate.
    cbn [bind] in H. exact (IH _ _ (discard_sound _ _ Hs Hd) H).
Qed.

Lemma clear_sound s : sound s -> sound (BLI_stack_clear s).
Proof.
  intros [Hsh Hreq Hdata Hcount].
  constructor; cbn [BLI_stack_clear chunk_size top_chunk element_count];
    try assumption.
  - exact (clear_shape _ Hsh).
  - constructor.
  - unfold SIZE_MAX1. lia.
Qed.

Lemma exec_sound o s s' : sound s -> exec o s = Ok s' -> sound s'.
Proof.
  intros Hs H. destruct o as [src| |buf dst| |buf dst n|buf dst n|];
    cbn [exec] in H.
  - exact (push_sound _ _ _ Hs H).
  - destruct (BLI_stack_push_r s) as [[s1 p]| |] eqn:Hr; try discriminate.
    injection H as <-. exact (push_r_sound _ _ _ Hs Hr).
  - destruct (BLI_stack_pop s buf dst) as [[s1 b]| |] eqn:Hp;
      try discriminate.
    injection H as <-.
    exact (discard_sound _ _ Hs (pop_state _ _ _ _ _ Hp)).
  - exact (discard_sound _ _ Hs H).
  - destruct (BLI_stack_pop_n s buf dst n) as [[s1 b]| |] eqn:Hp;
      try discriminate.
    injection H as <-. unfold BLI_stack_pop_n in Hp.
    destruct dst as [d|]; [|discriminate].
    exact (discards_sound _ _ _ Hs (pop_n_loop_discards _ _ _ _ _ _ _ Hp)).
  - destruct (BLI_stack_pop_n_reverse s buf dst n) as [[s1 b]| |] eqn:Hp;
      try discriminate.
    injection H as <-. unfold BLI_stack_pop_n_reverse in Hp.
    destruct dst as [d|]; [|discriminate].
    exact (discards_sound _ _ _ Hs
             (pop_n_reverse_loop_discards _ _ _ _ _ _ Hp)).
  - injection H as <-. exact (clear_sound _ Hs).
Qed.

Lemma run_sound ops :
  forall s s', sound s -> run ops s = Ok s' -> sound s'.
Proof.
  induction ops as [|o ops IH]; intros s s' Hs H; cbn [run] in H.
  - injection H as <-. exact Hs.
  - destruct (exec o s) as [s1| |] eqn:Hx; try discriminate.
    cbn [bind] in H. exact (IH _ _ (exec_sound _ _ _ Hs Hx) H).
Qed.

Lemma wf_sound s : wf s -> sound s.
Proof.
  intros Hwf. pose proof (wf_cs _ Hwf).
  constructor.
  - exact (wf_shape _ Hwf).
  - lia.
  - exact (wf_data _ Hwf).
  - rewrite (wf_count _ Hwf). apply size_t_range.
Qed.

(** ** Allocation bookkeeping *)

Lemma push_r_ledger es cs s s' p :
  ledger es cs s -> BLI_stack_push_r s = Ok (s', p) -> ledger es cs s'.
Proof.
  intros (He & Hc & Hl) H.
  destruct (push_r_inv _ _ _ H) as (He1 & Hc1 & _ & _ & Ht & Hm & Hf & _).
  unfold ledger. rewrite He1, Hc1, Ht, Hm, Hf.
  conjuncts; auto. destruct (needs_chunk s); cbn [length]; lia.
Qed.

Lemma push_ledger es cs s src s' :
  ledger es cs s -> BLI_stack_push s src = Ok s' -> ledger es cs s'.
Proof.
  intros Hs H. unfold BLI_stack_push in H.
  destruct src as [m|]; [|discriminate].
  destruct (BLI_stack_push_r s) as [[s1 dst]| |] eqn:Hr; try discriminate.
  cbn [bind] in H.
  destruct (mem_load m 0 (elem_size s1)) as [v| |]; try discriminate.
  cbn [bind] in H.
  destruct (chunks_store (top_chunk s1) dst v) as [cs1| |] eqn:Hst;
    try discriminate.
  injection H as <-.
  destruct (push_r_ledger _ _ _ _ _ Hs Hr) as (He & Hc & Hl).
  unfold ledger. cbn. rewrite (chunks_store_length _ _ _ _ Hst). auto.
Qed.

Lemma discard_ledger es cs s s' :
  ledger es cs s -> BLI_stack_discard s = Ok s' -> ledger es cs s'.
Proof.
  intros (He & Hc & Hl) H. unfold BLI_stack_discard in H.
  destruct (chunk_index s =? 0).
  - destruct (top_chunk s) as [|c next] eqn:Etop; [discriminate|].
    injection H as <-. unfold ledger. cbn. cbn in Hl. conjuncts; auto. lia.
  - injection H as <-. unfold ledger. cbn. auto.
Qed.

Lemma discards_ledger es cs k :
  forall s s',
    ledger es cs s -> run (repeat OpDiscard k) s = Ok s' -> ledger es cs s'.
Proof.
  induction k as [|k IH]; intros s s' Hs H; cbn [repeat run exec] in H.
  - injection H as <-. exact Hs.
  - destruct (BLI_stack_discard s) as [s1| |] eqn:Hd; try discriminate.
    cbn [bind] in H. exact (IH _ _ (discard_ledger _ _ _ _ Hs Hd) H).
Qed.

Lemma clear_ledger es cs s : ledger es cs s -> ledger es cs (BLI_stack_clear s).
Proof.
  intros (He & Hc & Hl). unfold ledger. cbn.
  rewrite free_chunks_count. conjuncts; auto. lia.
Qed.

Lemma exec_ledger es cs o s s' :
  ledger es cs s -> exec o s = Ok s' -> ledger es cs s'.
Proof.
  intros Hs H. destruct o as [src| |buf dst| |buf dst n|buf dst n|];
    cbn [exec] in H.
  - exact (push_ledger _ _ _ _ _ Hs H).
  - destruct (BLI_stack_push_r s) as [[s1 p]| |] eqn:Hr; try discriminate.
    injection H as <-. exact (push_r_ledger _ _ _ _ _ Hs Hr).
  - destruct (BLI_stack_pop s buf dst) as [[s1 b]| |] eqn:Hp;
      try discriminate.
    injection H as <-.
    exact (discard_ledger _ _ _ _ Hs (pop_state _ _ _ _ _ Hp)).
  - exact (discard_ledger _ _ _ _ Hs H).
  - destruct (BLI_stack_pop_n s buf dst n) as [[s1 b]| |] eqn:Hp;
      try discriminate.
    injection H as <-. unfold BLI_stack_pop_n in Hp.
    destruct dst as [d|]; [|discriminate].
    exact (discards_ledger _ _ _ _ _ Hs (pop_n_loop_discards _ _ _ _ _ _ _ Hp)).
  - destruct (BLI_stack_pop_n_reverse s buf dst n) as [[s1 b]| |] eqn:Hp;
      try discriminate.
    injection H as <-. unfold BLI_stack_pop_n_reverse in Hp.
    destruct dst as [d|]; [|discriminate].
    exact (discards_ledger _ _ _ _ _ Hs
             (pop_n_reverse_loop_discards _ _ _ _ _ _ Hp)).
  - injection H as <-. exact (clear_ledger _ _ _ Hs).
Qed.

Lemma run_ledger es cs ops :
  forall s s', ledger es cs s -> run ops s = Ok s' -> ledger es cs s'.
Proof.
  induction ops as [|o ops IH]; intros s s' Hs H; cbn [run] in H.
  - injection H as <-. exact Hs.
  - destruct (exec o s) as [s1| |] eqn:Hx; try discriminate.
    cbn [bind] in H. exact (IH _ _ (exec_ledger _ _ _ _ _ Hs Hx) H).
Qed.

(** * The claims *)

(** ** C1: LIFO order *)

(** C1, as amended.  For every element size and every sequence of values
    of that many bytes each, pushing them in order on a freshly created
    stack and popping as many times returns them in reverse order,
    provided the chunk size of the stack (the chunk capacity given, or
    [1024 * elem_size] modulo [2^64] when [0] is given) is a positive
    multiple of the element size and the allocation request
    [sizeof (StackChunk) + chunk_size - 1] does not wrap. *)
Theorem lifo_order es cs s0 (vs : list (list byte)) :
  BLI_stack_new_ex es cs = Ok s0 ->
  0 < chunk_size s0 ->
  chunk_size s0 mod es = 0 ->
  sizeof_StackChunk + chunk_size s0 - 1 < SIZE_MAX1 ->
  Forall (fun v => Z.of_nat (length v) = es) vs ->
  exists s, push_then_pop es cs vs = Ok (s, map bytes (rev vs)).
Proof.
  intros Hnew Hpos Hmul Hreq Hall.
  destruct (new_ex_spec es cs s0 Hnew Hpos Hmul Hreq)
    as (Hwf0 & Hc0 & He0 & _).
  destruct (push_all_spec (map bytes vs) s0 Hwf0)
    as (s1 & Hpush & Hwf1 & Hc1 & _).
  { rewrite He0. apply Forall_map.
    eapply Forall_impl; [|exact Hall].
    intros v Hv. unfold bytes. now rewrite length_map. }
  rewrite Hc0, app_nil_r in Hc1.
  destruct (pop_values_spec (rev (map bytes vs)) s1 [] Hwf1)
    as (s2 & Hpop & _).
  { now rewrite app_nil_r. }
  exists s2. unfold push_then_pop. rewrite Hnew. cbn [bind].
  rewrite Hpush. cbn [bind].
  rewrite length_rev, length_map in Hpop. rewrite Hpop.
  now rewrite map_rev.
Qed.

Lemma lifo_order_witness :
  exists s, push_then_pop 2 4 [["a"; "b"]; ["c"; "d"]; ["e"; "f"]]%byte
            = Ok (s, map bytes [["e"; "f"]; ["c"; "d"]; ["a"; "b"]]%byte).
Proof.
  eapply (lifo_order 2 4 _ [["a"; "b"]; ["c"; "d"]; ["e"; "f"]]%byte).
  - vm_compute; reflexivity.
  - vm_compute; reflexivity.
  - vm_compute; reflexivity.
  - vm_compute; reflexivity.
  - repeat constructor.
Defined.

(** C1 fails as stated ("for any chunk_capacity").  With elements of 2
    bytes and a chunk capacity of 3 bytes the offset steps 2, 4, 6, ...
    and never meets the capacity, so no second chunk is ever allocated
    and the sixth push writes past the end of the block (10 bytes of
    data).  With elements of 8 bytes and a chunk capacity of [2^64 - 8]
    the allocation request wraps to 7 bytes, less than the [next]
    pointer that the first push writes. *)
Lemma lifo_order_capacity_counterexample :
  push_then_pop 2 3
    [["0"; "0"]; ["1"; "1"]; ["2"; "2"]; ["3"; "3"]; ["4"; "4"];
     ["5"; "5"]; ["6"; "6"]; ["7"; "7"]; ["8"; "8"]]%byte
  = UB
  /\ push_then_pop 8 (2 ^ 64 - 8)
       [["0"; "1"; "2"; "3"; "4"; "5"; "6"; "7"]]%byte
     = UB.
Proof. split; vm_compute; reflexivity. Qed.

(** ** C2: peek *)

(** While the offset of the head chunk is positive, [BLI_stack_peek]
    returns the address of the top element. *)
Lemma peek_spec s :
  wf s -> 0 < chunk_index s ->
  exists p x xs,
    BLI_stack_peek s = Ok p
    /\ contents s = x :: xs
    /\ chunks_load (top_chunk s) p (elem_size s) = Ok x.
Proof.
  intros [Hes Hcs Hcm Hidx Him Hdata Hnull Hcount Hlive] Hpos.
  unfold BLI_stack_peek, contents.
  destruct (top_chunk s) as [|c rest] eqn:Etop;
    [specialize (Hnull eq_refl); lia|].
  pose proof (Forall_inv Hdata) as Hlen. cbn beta in Hlen.
  pose proof (multiple_ge _ _ Hes Him Hpos) as Hge.
  destruct (retract_read (elem_size s) (chunk_size s) (chunk_index s) c
              Hes ltac:(lia) Hlen ltac:(lia) Him)
    as (Hsz & Hload & Helems & _).
  rewrite Hsz, Helems. cbn [app].
  eexists _, _, _. split; [reflexivity|]. split; [reflexivity|].
  cbn [chunks_load p_chunk p_off]. rewrite Nat.eqb_refl. exact Hload.
Qed.

(** C2, at the failing input.  Three 1-byte elements "a", "b", "c" are
    pushed on a stack with chunks of 2 bytes and one is popped: the stack
    holds "b" above "a", both in the older chunk (block 0), and the head
    chunk (block 1) is spent (offset 0) but resident.  [BLI_stack_peek]
    then computes the offset [0 - 1] in [size_t], that is [2^64 - 1], in
    the spent head chunk: the pointer it returns is outside that chunk
    and is not the address of "b", which is cell 1 of block 0. *)
Theorem peek_spent_head_chunk :
  let ops := [OpPush (bytes ["a"%byte]); OpPush (bytes ["b"%byte]);
              OpPush (bytes ["c"%byte]); OpPop [Undef] (Some 0)] in
  exists s0 s p,
    BLI_stack_new_ex 1 2 = Ok s0
    /\ run ops s0 = Ok s
    /\ legal ops s0 = true
    /\ BLI_stack_is_empty s = false
    /\ contents s = [bytes ["b"%byte]; bytes ["a"%byte]]
    /\ chunk_index s = 0
    /\ BLI_stack_peek s = Ok p
    /\ p = {| p_chunk := 1; p_off := 2 ^ 64 - 1 |}
    /\ chunks_load (top_chunk s) p (elem_size s) = UB
    /\ chunks_load (top_chunk s) {| p_chunk := 0; p_off := 1 |} (elem_size s)
       = Ok (bytes ["b"%byte]).
Proof.
  eexists _, _, _. split; [vm_compute; reflexivity|].
  split; [vm_compute; reflexivity|].
  vm_compute. conjuncts; reflexivity.
Qed.

(** ** C3: pop, peek and discard on an empty stack *)

(** On an empty stack that owns no chunk the assertions fire. *)
Lemma empty_without_chunk_asserts s buf dst :
  top_chunk s = [] -> chunk_index s = 0 ->
  BLI_stack_pop s buf dst = AssertFail
  /\ BLI_stack_discard s = AssertFail
  /\ BLI_stack_peek s = AssertFail.
Proof.
  intros Htop Hidx.
  unfold BLI_stack_pop, BLI_stack_discard, BLI_stack_peek.
  rewrite Htop, Hidx. cbn. auto.
Qed.

(** C3, at the failing input.  One 1-byte element is pushed on a stack
    with chunks of 2 bytes and popped again: the stack is empty and its
    only chunk is still the head of the chunk list.  No assertion fails
    then: [BLI_stack_discard] returns with a null chunk list and the
    element count [0 - 1 = 2^64 - 1], [BLI_stack_peek] returns a pointer,
    and [BLI_stack_pop] with a destination goes on to read through the
    null head pointer. *)
Theorem empty_with_resident_chunk :
  let ops := [OpPush (bytes ["a"%byte]); OpPop [Undef] (Some 0)] in
  exists s0 s,
    BLI_stack_new_ex 1 2 = Ok s0
    /\ run ops s0 = Ok s
    /\ legal ops s0 = true
    /\ BLI_stack_is_empty s = true
    /\ length (top_chunk s) = 1%nat
    /\ (exists s', BLI_stack_discard s = Ok s'
                   /\ top_chunk s' = []
                   /\ BLI_stack_count s' = 2 ^ 64 - 1)
    /\ (exists p, BLI_stack_peek s = Ok p /\ p_off p = 2 ^ 64 - 1)
    /\ BLI_stack_pop s [Undef] (Some 0) = UB.
Proof.
  eexists _, _. split; [vm_compute; reflexivity|].
  split; [vm_compute; reflexivity|].
  vm_compute. conjuncts; try reflexivity.
  - eexists. conjuncts; reflexivity.
  - eexists. conjuncts; reflexivity.
Qed.

(** ** C9: discard and pop with a null destination *)

(** C9.  In every stack state, [BLI_stack_discard] and [BLI_stack_pop]
    with a null destination have the same outcome: they fail alike or
    return the same stack (chunk list, offset, element count), and the
    pop leaves the caller's buffer as it was. *)
Theorem discard_equiv_pop_null s buf :
  BLI_stack_pop s buf None
  = (s' <- BLI_stack_discard s ;; Ok (s', buf)).
Proof. apply pop_null_discard. Qed.

(** ** C10: popping no element *)

(** C10.  With [n = 0] and a non-null destination, [BLI_stack_pop_n] and
    [BLI_stack_pop_n_reverse] return the stack and the destination buffer
    unchanged, in every stack state. *)
Theorem pop_n_zero s buf d :
  BLI_stack_pop_n s buf (Some d) 0 = Ok (s, buf)
  /\ BLI_stack_pop_n_reverse s buf (Some d) 0 = Ok (s, buf).
Proof. split; reflexivity. Qed.

(** ** C4: the offset of the head chunk *)

(** C4, as amended.  When the chunk size of the created stack (the chunk
    capacity given, or [1024 * elem_size] modulo [2^64] when [0] is
    given) is a positive multiple of the element size, then in every
    state reached from the fresh stack by a sequence of calls of push,
    push_r, pop, discard, pop_n, pop_n_reverse and clear that all
    return, with any arguments, the offset of the head chunk is a
    multiple of the element size and lies in [[0, chunk_size]]. *)
Theorem index_invariant es cs ops s0 s :
  BLI_stack_new_ex es cs = Ok s0 ->
  0 < chunk_size s0 < SIZE_MAX1 ->
  chunk_size s0 mod es = 0 ->
  run ops s0 = Ok s ->
  index_ok s.
Proof.
  intros Hnew Hpos Hmul Hrun.
  assert (Hsh : shape s0).
  { unfold BLI_stack_new_ex in Hnew.
    destruct (es >? 0) eqn:Hes; [|discriminate]. apply Z.gtb_lt in Hes.
    injection Hnew as <-. cbn [chunk_size] in *.
    constructor; cbn [elem_size chunk_size]; try assumption.
    split; cbn; [reflexivity | lia]. }
  exact (shape_index _ (run_shape ops s0 s Hsh Hrun)).
Qed.

Lemma index_invariant_witness :
  exists s0 s,
    BLI_stack_new_ex 2 4 = Ok s0
    /\ run [OpPush (bytes ["a"; "b"]%byte); OpPushR; OpPushR] s0 = Ok s
    /\ chunk_index s = 2
    /\ index_ok s.
Proof.
  eexists _, _. split; [vm_compute; reflexivity|].
  split; [vm_compute; reflexivity|].
  split; [reflexivity|].
  eapply (index_invariant 2 4
            [OpPush (bytes ["a"; "b"]%byte); OpPushR; OpPushR]).
  - vm_compute; reflexivity.
  - vm_compute. split; reflexivity.
  - vm_compute; reflexivity.
  - vm_compute; reflexivity.
Defined.

(** C4 fails as stated ("for every positive chunk_capacity"): with
    elements of 2 bytes and a chunk capacity of 3 bytes, two calls of
    [BLI_stack_push_r] leave the offset at 4, above the capacity.  It
    also fails for the default capacity once [1024 * elem_size] wraps:
    with elements of [2^54 + 1] bytes and a capacity of [0] the chunk
    size is 1024 and one call of [BLI_stack_push_r] leaves the offset at
    [2^54 + 1]. *)
Lemma index_invariant_capacity_counterexample :
  (exists s0 s,
     BLI_stack_new_ex 2 3 = Ok s0
     /\ run [OpPushR; OpPushR] s0 = Ok s
     /\ chunk_index s = 4
     /\ chunk_size s = 3
     /\ ~ index_ok s)
  /\ (exists s0 s,
        BLI_stack_new_ex (2 ^ 54 + 1) 0 = Ok s0
        /\ run [OpPushR] s0 = Ok s
        /\ chunk_index s = 2 ^ 54 + 1
        /\ chunk_size s = 1024
        /\ ~ index_ok s).
Proof.
  split.
  - eexists _, _. split; [vm_compute; reflexivity|].
    split; [vm_compute; reflexivity|].
    split; [reflexivity|]. split; [reflexivity|].
    unfold index_ok. cbn [chunk_index chunk_size elem_size]. lia.
  - eexists _, _. split; [vm_compute; reflexivity|].
    split; [vm_compute; reflexivity|].
    split; [reflexivity|]. split; [reflexivity|].
    unfold index_ok. cbn [chunk_index chunk_size elem_size]. lia.
Qed.

(** ** C5: crossing chunk boundaries *)

(** The number of elements, from the number of chunks and the offset. *)
Lemma contents_length s :
  wf s ->
  Z.of_nat (length (contents s))
  = match top_chunk s with
    | [] => 0
    | _ :: rest =>
        chunk_index s / elem_size s
        + chunk_size s / elem_size s * Z.of_nat (length rest)
    end.
Proof.
  intros [Hes Hcs Hcm Hidx Him Hdata Hnull Hcount Hlive].
  unfold contents. destruct (top_chunk s) as [|c rest]; [reflexivity|].
  rewrite length_app, chunk_elems_length, Nat2Z.inj_add.
  rewrite Z2Nat.id by (apply Z.div_pos; lia).
  f_equal. clear Hdata Hnull Hlive.
  assert (Hm : 0 <= chunk_size s / elem_size s) by (apply Z.div_pos; lia).
  induction rest as [|c' rest IH]; cbn [flat_map length].
  - lia.
  - rewrite length_app, chunk_elems_length, Nat2Z.inj_add, IH.
    rewrite Z2Nat.id by exact Hm. lia.
Qed.

(** C5, as amended.  With [chunk_capacity = 2 * element_size] (and an
    allocation request that does not wrap), pushing
    five elements on a fresh stack and popping five times raises no error
    and returns the five values in reverse push order; three chunks are
    allocated and two of them are freed: the chunk of the last popped
    element stays resident as the head of the chunk list, until
    [BLI_stack_free] (or [BLI_stack_clear]) frees it. *)
Theorem boundary_crossing es (v1 v2 v3 v4 v5 : list byte) :
  0 < es ->
  2 * es < SIZE_MAX1 ->
  sizeof_StackChunk + 2 * es - 1 < SIZE_MAX1 ->
  Forall (fun v => Z.of_nat (length v) = es) [v1; v2; v3; v4; v5] ->
  exists s,
    push_then_pop es (2 * es) [v1; v2; v3; v4; v5]
    = Ok (s, map bytes [v5; v4; v3; v2; v1])
    /\ mallocs s = 3%nat
    /\ frees s = 2%nat
    /\ length (top_chunk s) = 1%nat
    /\ BLI_stack_free s = (3%nat, 3%nat).
Proof.
  intros Hes Hsz Hreq Hall.
  assert (Hnew : exists s0, BLI_stack_new_ex es (2 * es) = Ok s0
                            /\ chunk_size s0 = 2 * es).
  { unfold BLI_stack_new_ex.
    replace (es >? 0) with true by (symmetry; apply Z.gtb_lt; lia).
    replace (2 * es >? 0) with true by (symmetry; apply Z.gtb_lt; lia).
    eexists. split; reflexivity. }
  destruct Hnew as (s0 & Hnew & Hs0).
  destruct (new_ex_spec es (2 * es) s0 Hnew)
    as (Hwf0 & Hc0 & He0 & _ & Hm0 & Hf0);
    [rewrite Hs0; lia | rewrite Hs0; apply Z.mod_mul; lia
     | rewrite Hs0; exact Hreq |].
  set (vs := [v1; v2; v3; v4; v5]) in *.
  destruct (push_all_spec (map bytes vs) s0 Hwf0)
    as (s1 & Hpush & Hwf1 & Hc1 & He1 & Hs1 & Hf1).
  { rewrite He0. apply Forall_map.
    eapply Forall_impl; [|exact Hall].
    intros v Hv. unfold bytes. now rewrite length_map. }
  rewrite Hc0, app_nil_r in Hc1.
  destruct (pop_values_spec (rev (map bytes vs)) s1 [] Hwf1)
    as (s2 & Hpop & Hwf2 & Hc2 & He2 & Hs2 & Hm2 & Htop2).
  { now rewrite app_nil_r. }
  specialize (Htop2 ltac:(discriminate)).
  (* the chunks left after the pops *)
  assert (Hdiv : chunk_size s2 / elem_size s2 = 2).
  { rewrite He2, Hs2, He1, Hs1, He0, Hs0. apply Z.div_mul. lia. }
  pose proof (contents_length s2 Hwf2) as Hlen2.
  rewrite Hc2 in Hlen2. cbn [length] in Hlen2.
  destruct (top_chunk s2) as [|c2 rest2] eqn:Etop2; [congruence|].
  pose proof (wf_idx _ Hwf2) as Hi2. pose proof (wf_es _ Hwf2) as Hes2.
  assert (0 <= chunk_index s2 / elem_size s2) by (apply Z.div_pos; lia).
  rewrite Hdiv in Hlen2.
  assert (Hrest2 : length rest2 = O) by lia.
  (* the chunks allocated by the pushes *)
  assert (Hfrees1 : frees s1 = O) by congruence.
  assert (Hdiv1 : chunk_size s1 / elem_size s1 = 2).
  { rewrite He1, Hs1, He0, Hs0. apply Z.div_mul. lia. }
  pose proof (contents_length s1 Hwf1) as Hlen1.
  rewrite Hc1 in Hlen1. cbn [length map rev vs app] in Hlen1.
  destruct (top_chunk s1) as [|c1 rest1] eqn:Etop1; [discriminate|].
  pose proof (wf_idx _ Hwf1) as Hi1. pose proof (wf_es _ Hwf1) as Hes1.
  pose proof (wf_cs_mul _ Hwf1) as Hcm1.
  assert (0 <= chunk_index s1 / elem_size s1 <= 2).
  { split; [apply Z.div_pos; lia|].
    rewrite <- Hdiv1. apply Z.div_le_mono; lia. }
  rewrite Hdiv1 in Hlen1.
  assert (Hrest1 : length rest1 = 2%nat) by lia.
  pose proof (wf_live _ Hwf1) as Hlive1.
  rewrite Etop1, Hfrees1 in Hlive1. cbn [length] in Hlive1.
  pose proof (wf_live _ Hwf2) as Hlive2.
  rewrite Etop2 in Hlive2. cbn [length] in Hlive2.
  exists s2. unfold push_then_pop. rewrite Hnew. cbn [bind].
  rewrite Hpush. cbn [bind].
  rewrite length_rev, length_map in Hpop. rewrite Hpop.
  unfold BLI_stack_free. rewrite Etop2, free_chunks_count.
  cbn [length]. conjuncts; try reflexivity; try lia.
  f_equal; lia.
Qed.

Lemma boundary_crossing_witness :
  exists s,
    push_then_pop 4 8
      [["1"; "0"; "0"; "0"]; ["2"; "0"; "0"; "0"]; ["3"; "0"; "0"; "0"];
       ["4"; "0"; "0"; "0"]; ["5"; "0"; "0"; "0"]]%byte
    = Ok (s, map bytes
               [["5"; "0"; "0"; "0"]; ["4"; "0"; "0"; "0"];
                ["3"; "0"; "0"; "0"]; ["2"; "0"; "0"; "0"];
                ["1"; "0"; "0"; "0"]]%byte)
    /\ mallocs s = 3%nat
    /\ frees s = 2%nat
    /\ length (top_chunk s) = 1%nat
    /\ BLI_stack_free s = (3%nat, 3%nat).
Proof.
  apply (boundary_crossing 4).
  - lia.
  - unfold SIZE_MAX1. lia.
  - vm_compute; reflexivity.
  - repeat constructor.
Defined.

(** C5 fails as stated ("frees exactly as many chunks as were
    allocated"): after the fifth pop, two of the three allocated chunks
    have been freed. *)
Lemma boundary_crossing_counterexample :
  exists s,
    push_then_pop 1 2 [["a"]; ["b"]; ["c"]; ["d"]; ["e"]]%byte
    = Ok (s, map bytes [["e"]; ["d"]; ["c"]; ["b"]; ["a"]]%byte)
    /\ mallocs s = 3%nat
    /\ frees s = 2%nat
    /\ frees s <> mallocs s.
Proof.
  eexists. split; [vm_compute; reflexivity|].
  cbn [mallocs frees]. conjuncts; try reflexivity. discriminate.
Qed.

(** ** C6: round trip *)

Lemma reachable_front o s0 s1 s :
  pre o s0 = true -> exec o s0 = Ok s1 -> reachable s1 s -> reachable s0 s.
Proof.
  intros Hpre Hex Hr. induction Hr as [|t o' t' Hr IH Hpre' Hex'].
  - eapply reach_step; [apply reach_init | exact Hpre | exact Hex].
  - eapply reach_step; [exact IH | exact Hpre' | exact Hex'].
Qed.

(** The state after a legal sequence of calls is reachable. *)
Lemma legal_run_reachable ops :
  forall s0 s, legal ops s0 = true -> run ops s0 = Ok s -> reachable s0 s.
Proof.
  induction ops as [|o ops IH]; intros s0 s Hl Hr; cbn [legal run] in *.
  - injection Hr as <-. apply reach_init.
  - apply andb_true_iff in Hl. destruct Hl as [Hpre Hl].
    destruct (exec o s0) as [s1| |] eqn:Hex; try discriminate.
    cbn [bind] in Hr.
    exact (reachable_front o s0 s1 s Hpre Hex (IH s1 s Hl Hr)).
Qed.

Lemma load_written buf d v n :
  dst_ok buf (Some d) n = true -> Z.of_nat (length v) = n ->
  mem_load (mem_write buf (Z.to_nat d) v) d n = Ok v.
Proof.
  unfold dst_ok. intros H Hv. apply andb_true_iff in H.
  destruct H as [H0 H1]. apply Z.leb_le in H0, H1.
  unfold mem_load. rewrite mem_write_length by lia.
  replace ((0 <=? d) && (0 <=? n) && (d + n <=? Z.of_nat (length buf)))
    with true
    by (symmetry; rewrite !andb_true_iff; conjuncts; apply Z.leb_le; lia).
  f_equal. replace (Z.to_nat n) with (length v) by lia.
  apply read_mem_write_same. lia.
Qed.

(** The states that legal calls reach from a stack whose chunk size is
    a positive multiple of the element size and fits the allocation
    request. *)
Lemma reachable_fresh es cs s0 s :
  BLI_stack_new_ex es cs = Ok s0 ->
  0 < chunk_size s0 ->
  chunk_size s0 mod es = 0 ->
  sizeof_StackChunk + chunk_size s0 - 1 < SIZE_MAX1 ->
  reachable s0 s ->
  wf s /\ elem_size s = es /\ wf s0 /\ contents s0 = [].
Proof.
  intros Hnew Hpos Hmul Hreq Hreach.
  destruct (new_ex_spec es cs s0 Hnew Hpos Hmul Hreq)
    as (Hwf0 & Hc0 & He0 & _).
  destruct (reachable_wf s0 s Hwf0 Hreach) as (Hwf & He & _).
  conjuncts; congruence.
Qed.

Lemma push_r_returns s :
  (malloc_request s <? offsetof_data) = false ->
  exists s' p, BLI_stack_push_r s = Ok (s', p).
Proof.
  intros Hreq. unfold BLI_stack_push_r. rewrite Hreq, andb_false_r.
  destruct (needs_chunk s) eqn:Hneed; cbn [top_chunk]; [eauto|].
  unfold needs_chunk in Hneed.
  destruct (top_chunk s) as [|c rest]; [discriminate | eauto].
Qed.

(** A push and the pop that follows it, in any state that returning
    calls can reach. *)
Lemma push_pop_sound s x buf d :
  sound s ->
  Z.of_nat (length x) = elem_size s ->
  dst_ok buf (Some d) (elem_size s) = true ->
  exists s1 s2 buf',
    BLI_stack_push s (Some x) = Ok s1
    /\ BLI_stack_pop s1 buf (Some d) = Ok (s2, buf')
    /\ mem_load buf' d (elem_size s) = Ok x
    /\ element_count s2 = element_count s.
Proof.
  intros Hs Hx Hdst.
  pose proof Hs as [[Hes Hcs Hcm [Him Hidx]] Hreq Hdata Hcount].
  pose proof (multiple_ge _ _ Hes Hcm ltac:(lia)) as Hle.
  destruct (malloc_request_fits s ltac:(lia)) as (_ & Hguard & Hcells).
  destruct (push_r_returns s Hguard) as (s1 & p & Hr).
  destruct (push_r_inv _ _ _ Hr)
    as (He1 & Hc1 & Hi1 & Hn1 & Htop1 & _ & _ & _ & c & rest & Etop & Hp).
  pose proof (push_r_sound _ _ _ Hs Hr) as [_ _ Hdata1 _].
  rewrite Etop in Hdata1. pose proof (Forall_inv Hdata1) as Hlen.
  cbn beta in Hlen. rewrite Hc1 in Hlen.
  set (I := if needs_chunk s then 0 else chunk_index s) in *.
  assert (HI : 0 <= I /\ I + elem_size s <= chunk_size s).
  { unfold I. destruct (needs_chunk s) eqn:Hneed; [lia|].
    unfold needs_chunk in Hneed. apply orb_false_iff in Hneed.
    destruct Hneed as [_ Hne]. apply Z.eqb_neq in Hne.
    pose proof (multiple_lt _ _ Hes Him _ Hcm ltac:(lia)). lia. }
  rewrite size_t_small in Hi1 by lia.
  assert (HE : length x = Z.to_nat (elem_size s)) by lia.
  eexists _, _, (mem_write buf (Z.to_nat d) x).
  split.
  { unfold BLI_stack_push. rewrite Hr. cbn [bind].
    rewrite He1, load_prefix by lia. cbn [bind].
    rewrite firstn_all2 by lia.
    rewrite Etop, Hp. cbn [chunks_store p_chunk p_off].
    rewrite Nat.eqb_refl. unfold mem_store.
    replace ((0 <=? I) && (I + Z.of_nat (length x)
                           <=? Z.of_nat (length (data c)))) with true
      by (symmetry; apply andb_true_iff; split; apply Z.leb_le; lia).
    cbn [bind]. reflexivity. }
  unfold BLI_stack_pop.
  cbn [chunk_index top_chunk elem_size chunk_size element_count mallocs
       frees].
  rewrite Hi1.
  replace (I + elem_size s =? 0) with false
    by (symmetry; apply Z.eqb_neq; lia).
  cbn [bind chunk_index top_chunk elem_size chunk_size element_count
       mallocs frees data].
  rewrite ?Hi1, ?He1.
  replace (I + elem_size s - elem_size s) with I by lia.
  rewrite (size_t_small I) by lia.
  unfold mem_load at 1. rewrite mem_write_length by lia.
  replace ((0 <=? I) && (0 <=? elem_size s)
           && (I + elem_size s <=? Z.of_nat (length (data c)))) with true
    by (symmetry; rewrite !andb_true_iff; conjuncts; apply Z.leb_le; lia).
  cbn [bind]. rewrite <- HE, read_mem_write_same by lia.
  rewrite (store_dst buf d x (elem_size s)) by assumption.
  cbn [bind]. split; [reflexivity|]. split.
  - apply load_written; assumption.
  - cbn [element_count]. rewrite Hn1, size_t_pred.
    replace (element_count s + 1 - 1) with (element_count s) by lia.
    apply size_t_small. exact Hcount.
Qed.

(** C6, as amended.  When the chunk size of the created stack (the chunk
    capacity given, or [1024 * elem_size] modulo [2^64] when [0] is
    given) is a positive multiple of the element size and the allocation
    request [sizeof (StackChunk) + chunk_size - 1] does not wrap, then in
    every state reached from the fresh stack by calls that returned
    (with any arguments), pushing a value [x] of [elem_size] bytes and
    popping at once into a destination stores the bytes of [x] in the
    destination, and the element count is as before the push. *)
Theorem push_pop_round_trip es cs ops s0 s (x : list byte) buf d :
  BLI_stack_new_ex es cs = Ok s0 ->
  0 < chunk_size s0 ->
  chunk_size s0 mod es = 0 ->
  sizeof_StackChunk + chunk_size s0 - 1 < SIZE_MAX1 ->
  run ops s0 = Ok s ->
  Z.of_nat (length x) = es ->
  dst_ok buf (Some d) es = true ->
  exists s1 s2 buf',
    BLI_stack_push s (Some (bytes x)) = Ok s1
    /\ BLI_stack_pop s1 buf (Some d) = Ok (s2, buf')
    /\ mem_load buf' d es = Ok (bytes x)
    /\ BLI_stack_count s2 = BLI_stack_count s.
Proof.
  intros Hnew Hpos Hmul Hreq Hrun Hx Hdst.
  destruct (new_ex_spec es cs s0 Hnew Hpos Hmul Hreq)
    as (Hwf0 & _ & He0 & _).
  pose proof (run_sound ops s0 s (wf_sound _ Hwf0) Hrun) as Hs.
  assert (He : elem_size s = es).
  { rewrite <- He0.
    assert (L : ledger (elem_size s0) (chunk_size s0) s0).
    { unfold ledger. pose proof (wf_live _ Hwf0). auto. }
    exact (proj1 (run_ledger _ _ ops s0 s L Hrun)). }
  rewrite <- He in Hdst |- *.
  apply push_pop_sound; try assumption.
  unfold bytes. rewrite length_map. congruence.
Qed.

Lemma push_pop_round_trip_witness :
  exists s0 s,
    BLI_stack_new_ex 2 4 = Ok s0
    /\ run [OpPush (bytes ["a"; "b"]%byte); OpDiscard; OpDiscard;
            OpPush (bytes ["c"; "d"]%byte)] s0
       = Ok s
    /\ exists s1 s2 buf',
         BLI_stack_push s (Some (bytes ["x"; "y"]%byte)) = Ok s1
         /\ BLI_stack_pop s1 [Undef; Undef; Undef] (Some 1) = Ok (s2, buf')
         /\ mem_load buf' 1 2 = Ok (bytes ["x"; "y"]%byte)
         /\ BLI_stack_count s2 = BLI_stack_count s.
Proof.
  eexists _, _. split; [vm_compute; reflexivity|].
  split; [vm_compute; reflexivity|].
  eapply (push_pop_round_trip 2 4
            [OpPush (bytes ["a"; "b"]%byte); OpDiscard; OpDiscard;
             OpPush (bytes ["c"; "d"]%byte)]).
  - vm_compute; reflexivity.
  - vm_compute; reflexivity.
  - vm_compute; reflexivity.
  - vm_compute; reflexivity.
  - vm_compute; reflexivity.
  - reflexivity.
  - reflexivity.
Defined.

(** C6 fails as stated ("every chunk_capacity"): on a stack of 2-byte
    elements with a chunk capacity of 3 bytes on which
    [BLI_stack_push_r] was called eight times, the offset is 16 and the
    push writes its two bytes past the end of the only block (10 bytes
    of data).  And on a fresh stack of 8-byte elements with a chunk
    capacity of [2^64 - 8] the allocation request wraps to 7 bytes, less
    than the [next] pointer that the push writes. *)
Lemma round_trip_capacity_counterexample :
  (exists s0 s,
     BLI_stack_new_ex 2 3 = Ok s0
     /\ run (repeat OpPushR 8) s0 = Ok s
     /\ legal (repeat OpPushR 8) s0 = true
     /\ chunk_index s = 16
     /\ length (top_chunk s) = 1%nat
     /\ BLI_stack_push s (Some (bytes ["x"; "y"]%byte)) = UB)
  /\ (exists s0,
        BLI_stack_new_ex 8 (2 ^ 64 - 8) = Ok s0
        /\ malloc_request s0 = 7
        /\ BLI_stack_push s0
             (Some (bytes ["0"; "1"; "2"; "3"; "4"; "5"; "6"; "7"]%byte))
           = UB).
Proof.
  split.
  - eexists _, _. split; [vm_compute; reflexivity|].
    split; [vm_compute; reflexivity|].
    vm_compute. conjuncts; reflexivity.
  - eexists. split; [vm_compute; reflexivity|].
    vm_compute. conjuncts; reflexivity.
Qed.

(** ** C7: count consistency *)

Lemma pushes_cons o ops :
  pushes (o :: ops) = (if is_push o then 1 else 0) + pushes ops.
Proof.
  unfold pushes. cbn [filter]. destruct (is_push o); cbn [length]; lia.
Qed.

Lemma pops_cons o ops :
  pops (o :: ops) = (if is_pop o then 1 else 0) + pops ops.
Proof.
  unfold pops. cbn [filter]. destruct (is_pop o); cbn [length]; lia.
Qed.

(** An interleaving of pushes and pops runs to the end, and the stack
    then holds as many elements as were pushed and not popped. *)
Lemma run_interleaving ops :
  forall s held,
    wf s ->
    length (contents s) = held ->
    interleaving (elem_size s) held ops = true ->
    exists s',
      run ops s = Ok s'
      /\ wf s'
      /\ Z.of_nat (length (contents s'))
         = Z.of_nat held + pushes ops - pops ops.
Proof.
  induction ops as [|o ops IH]; intros s held Hwf Hheld Hint.
  - exists s. cbn. conjuncts; auto. lia.
  - rewrite pushes_cons, pops_cons.
    destruct o as [src| |buf dst| |buf dst n|buf dst n|];
      cbn [interleaving] in Hint; try discriminate;
      cbn [run exec is_push is_pop].
    + apply andb_true_iff in Hint. destruct Hint as [Hsrc Hint].
      apply Z.leb_le in Hsrc.
      destruct (push_spec s src Hwf Hsrc)
        as (s1 & Hp & Hwf1 & Hc1 & He1 & _).
      rewrite <- He1 in Hint.
      destruct (IH s1 (S held) Hwf1) as (s2 & Hr & Hwf2 & Hn);
        [rewrite Hc1; cbn [length]; congruence | exact Hint |].
      exists s2. rewrite Hp. cbn [bind]. conjuncts; try assumption. lia.
    + destruct (push_r_spec s Hwf)
        as (s1 & c & rest & Hp & _ & Hwf1 & He1 & _ & _ & Hne & Htl & _).
      rewrite <- He1 in Hint.
      destruct (IH s1 (S held) Hwf1) as (s2 & Hr & Hwf2 & Hn);
        [|exact Hint|].
      { destruct (contents s1) as [|x xs]; [congruence|].
        cbn [tl] in Htl. cbn [length]. congruence. }
      exists s2. rewrite Hp. cbn [bind]. conjuncts; try assumption. lia.
    + destruct held as [|held']; [discriminate|].
      apply andb_true_iff in Hint. destruct Hint as [Hdst Hint].
      destruct (contents s) as [|x xs] eqn:Hc; [discriminate|].
      destruct (pop_spec s buf dst x xs Hwf Hc Hdst)
        as (s1 & Hp & Hwf1 & Hc1 & He1 & _).
      rewrite <- He1 in Hint.
      destruct (IH s1 held' Hwf1) as (s2 & Hr & Hwf2 & Hn);
        [cbn [length] in Hheld; congruence | exact Hint |].
      exists s2. rewrite Hp. cbn [bind]. conjuncts; try assumption. lia.
    + destruct held as [|held']; [discriminate|].
      destruct (contents s) as [|x xs] eqn:Hc; [discriminate|].
      destruct (discard_spec s x xs Hwf Hc)
        as (s1 & Hp & Hwf1 & Hc1 & He1 & _).
      rewrite <- He1 in Hint.
      destruct (IH s1 held' Hwf1) as (s2 & Hr & Hwf2 & Hn);
        [cbn [length] in Hheld; congruence | exact Hint |].
      exists s2. rewrite Hp. cbn [bind]. conjuncts; try assumption. lia.
Qed.

(** C7, as amended.  When the chunk size of the created stack (the chunk
    capacity given, or [1024 * elem_size] modulo [2^64] when [0] is
    given) is a positive multiple of the element size and the allocation
    request [sizeof (StackChunk) + chunk_size - 1] does not wrap, any
    interleaving of [k] pushes and [j] pops/discards in which every pop
    or discard finds the stack non-empty runs to the end and leaves
    [count () = (k - j) mod 2^64], which is [k - j] when [k < 2^64]
    (the element count is a [size_t]); and [is_empty ()] is true exactly
    when [count ()] is [0], in every state. *)
Theorem count_consistency es cs s0 ops :
  BLI_stack_new_ex es cs = Ok s0 ->
  0 < chunk_size s0 ->
  chunk_size s0 mod es = 0 ->
  sizeof_StackChunk + chunk_size s0 - 1 < SIZE_MAX1 ->
  interleaving es 0 ops = true ->
  exists s,
    run ops s0 = Ok s
    /\ BLI_stack_count s = size_t (pushes ops - pops ops)
    /\ (pushes ops < SIZE_MAX1 ->
        BLI_stack_count s = pushes ops - pops ops)
    /\ forall t, BLI_stack_is_empty t = (BLI_stack_count t =? 0).
Proof.
  intros Hnew Hpos Hmul Hreq Hint.
  destruct (new_ex_spec es cs s0 Hnew Hpos Hmul Hreq)
    as (Hwf0 & Hc0 & He0 & _).
  rewrite <- He0 in Hint.
  destruct (run_interleaving ops s0 O Hwf0) as (s & Hrun & Hwf & Hn);
    [rewrite Hc0; reflexivity | exact Hint |].
  assert (Hcount : BLI_stack_count s = size_t (pushes ops - pops ops)).
  { unfold BLI_stack_count. rewrite (wf_count _ Hwf), Hn.
    first [reflexivity | f_equal; lia]. }
  exists s. conjuncts; try assumption; [|reflexivity].
  intros Hk. rewrite Hcount.
  assert (0 <= pops ops) by (unfold pops; lia).
  apply size_t_small. lia.
Qed.

Lemma count_consistency_witness :
  let ops := [OpPush (bytes ["1"; "0"; "0"; "0"]%byte);
              OpPushR;
              OpPush (bytes ["3"; "0"; "0"; "0"]%byte);
              OpPop [Undef; Undef; Undef; Undef] (Some 0);
              OpDiscard;
              OpPush (bytes ["4"; "0"; "0"; "0"]%byte);
              OpPop [] None] in
  exists s0,
    BLI_stack_new_ex 4 8 = Ok s0
    /\ exists s,
         run ops s0 = Ok s
         /\ BLI_stack_count s = size_t (pushes ops - pops ops)
         /\ (pushes ops < SIZE_MAX1 ->
             BLI_stack_count s = pushes ops - pops ops)
         /\ forall t, BLI_stack_is_empty t = (BLI_stack_count t =? 0).
Proof.
  intros ops. eexists. split; [vm_compute; reflexivity|].
  apply (count_consistency 4 8 _ ops); vm_compute; reflexivity.
Defined.

(** C7 fails as stated (no condition on the chunk capacity): on a stack
    of 2-byte elements with a chunk capacity of 3 bytes, six pushes on
    the fresh stack are an interleaving of the kind described, but the
    sixth writes at offset 10 of the only block, which has 10 bytes of
    data: no count is returned.  And on a stack of 8-byte elements with
    a chunk capacity of [2^64 - 8] the allocation request wraps to 7
    bytes, and the first push already writes past the block. *)
Lemma count_consistency_capacity_counterexample :
  (exists s0,
     BLI_stack_new_ex 2 3 = Ok s0
     /\ interleaving 2 0 (repeat (OpPush (bytes ["a"; "b"]%byte)) 6) = true
     /\ run (repeat (OpPush (bytes ["a"; "b"]%byte)) 5) s0 <> UB
     /\ run (repeat (OpPush (bytes ["a"; "b"]%byte)) 6) s0 = UB)
  /\ (exists s0,
        BLI_stack_new_ex 8 (2 ^ 64 - 8) = Ok s0
        /\ interleaving 8 0
             [OpPush (bytes ["0"; "1"; "2"; "3"; "4"; "5"; "6"; "7"]%byte)]
           = true
        /\ run [OpPush (bytes ["0"; "1"; "2"; "3"; "4"; "5"; "6"; "7"]%byte)]
             s0
           = UB).
Proof.
  split.
  - eexists. split; [vm_compute; reflexivity|].
    vm_compute. conjuncts; try reflexivity. discriminate.
  - eexists. split; [vm_compute; reflexivity|].
    vm_compute. conjuncts; reflexivity.
Qed.

(** ** C8: pop_n and pop_n_reverse *)

Lemma count_after_pops s s' n :
  wf s -> wf s' ->
  0 <= n <= BLI_stack_count s ->
  Z.of_nat (length (contents s')) = Z.of_nat (length (contents s)) - n ->
  BLI_stack_count s' = BLI_stack_count s - n.
Proof.
  intros Hwf Hwf' Hn Hlen. unfold BLI_stack_count in *.
  rewrite (wf_count _ Hwf') . rewrite (wf_count _ Hwf) in Hn |- *.
  rewrite Hlen.
  pose proof (size_t_range (Z.of_nat (length (contents s)))) as Hr.
  rewrite <- (size_t_small (size_t _ - n)) by lia.
  unfold size_t. now rewrite Zminus_mod_idemp_l.
Qed.

(** C8, as amended.  When the chunk size of the created stack (the chunk
    capacity given, or [1024 * elem_size] modulo [2^64] when [0] is
    given) is a positive multiple of the element size and the allocation
    request [sizeof (StackChunk) + chunk_size - 1] does not wrap, then in
    every state that calls meeting their obligations reach from the
    fresh stack and that holds at least [n] elements, [BLI_stack_pop_n]
    writes the [n] topmost elements to a destination of
    [n * elem_size] cells in pop order (the topmost first) and
    [BLI_stack_pop_n_reverse] writes the same elements in push order
    (the oldest of the [n] first); both leave the stack with [n]
    elements fewer. *)
Theorem pop_n_order es cs s0 s buf d n :
  BLI_stack_new_ex es cs = Ok s0 ->
  0 < chunk_size s0 ->
  chunk_size s0 mod es = 0 ->
  sizeof_StackChunk + chunk_size s0 - 1 < SIZE_MAX1 ->
  reachable s0 s ->
  pre (OpPopN buf (Some d) n) s = true ->
  let xs := firstn (Z.to_nat n) (contents s) in
  let rest := skipn (Z.to_nat n) (contents s) in
  (exists s1,
     BLI_stack_pop_n s buf (Some d) n
     = Ok (s1, mem_write buf (Z.to_nat d) (concat xs))
     /\ contents s1 = rest
     /\ BLI_stack_count s1 = BLI_stack_count s - n)
  /\ (exists s2,
        BLI_stack_pop_n_reverse s buf (Some d) n
        = Ok (s2, mem_write buf (Z.to_nat d) (concat (rev xs)))
        /\ contents s2 = rest
        /\ BLI_stack_count s2 = BLI_stack_count s - n).
Proof.
  intros Hnew Hpos Hmul Hreq Hreach Hpre xs rest.
  destruct (reachable_fresh es cs s0 s Hnew Hpos Hmul Hreq Hreach)
    as (Hwf & _).
  cbn [pre] in Hpre. rewrite !andb_true_iff in Hpre.
  destruct Hpre as [[[[[H0 H32] Hn] Hd] Hfit] Hbuf].
  apply Z.leb_le in H0, Hn, Hd, Hfit. apply Z.ltb_lt in Hbuf.
  pose proof (wf_count _ Hwf) as Hcount.
  pose proof (size_t_le (Z.of_nat (length (contents s))) ltac:(lia)) as Hle.
  assert (Hsplit : contents s = xs ++ rest)
    by (symmetry; apply firstn_skipn).
  assert (Hxs : length xs = Z.to_nat n).
  { unfold xs. rewrite length_firstn. unfold BLI_stack_count in Hn. lia. }
  assert (Hrest : Z.of_nat (length rest)
                  = Z.of_nat (length (contents s)) - n).
  { rewrite Hsplit, length_app. lia. }
  split.
  - destruct (pop_n_loop_spec xs s buf d 0 rest Hwf Hsplit Hd ltac:(lia))
      as (s1 & Hloop & Hwf1 & Hc1 & _);
      [rewrite Hxs, Z2Nat.id by lia; lia | exact Hbuf |].
    exists s1. unfold BLI_stack_pop_n. rewrite <- Hxs, Hloop.
    rewrite Z.mul_0_l, Z.add_0_r.
    conjuncts; [reflexivity | exact Hc1 |].
    apply count_after_pops; [assumption .. | lia | congruence].
  - destruct (pop_n_reverse_loop_spec xs s buf d rest Hwf Hsplit Hd)
      as (s2 & Hloop & Hwf2 & Hc2 & _);
      [rewrite Hxs, Z2Nat.id by lia; lia | exact Hbuf |].
    exists s2. unfold BLI_stack_pop_n_reverse. rewrite <- Hxs, Hloop.
    conjuncts; [reflexivity | exact Hc2 |].
    apply count_after_pops; [assumption .. | lia | congruence].
Qed.

Lemma pop_n_order_witness :
  exists s0 s,
    BLI_stack_new_ex 1 2 = Ok s0
    /\ run [OpPush (bytes ["A"%byte]); OpPush (bytes ["B"%byte]);
            OpPush (bytes ["C"%byte])] s0 = Ok s
    /\ (exists s1,
          BLI_stack_pop_n s [Undef; Undef; Undef] (Some 0) 3
          = Ok (s1, bytes ["C"; "B"; "A"]%byte)
          /\ contents s1 = []
          /\ BLI_stack_count s1 = 0)
    /\ (exists s2,
          BLI_stack_pop_n_reverse s [Undef; Undef; Undef] (Some 0) 3
          = Ok (s2, bytes ["A"; "B"; "C"]%byte)
          /\ contents s2 = []
          /\ BLI_stack_count s2 = 0).
Proof.
  eexists _, _. split; [vm_compute; reflexivity|].
  split; [vm_compute; reflexivity|].
  eapply (pop_n_order 1 2).
  - vm_compute; reflexivity.
  - vm_compute; reflexivity.
  - vm_compute; reflexivity.
  - vm_compute; reflexivity.
  - apply (legal_run_reachable
             [OpPush (bytes ["A"%byte]); OpPush (bytes ["B"%byte]);
              OpPush (bytes ["C"%byte])]); vm_compute; reflexivity.
  - vm_compute; reflexivity.
Defined.

(** C8 fails as stated (no condition on the chunk capacity, nor on how
    the state was reached).  On a stack of 2-byte elements with a chunk
    capacity of 3 bytes on which [BLI_stack_push_r] was called eight
    times, the stack holds 8 elements and the offset is 16: popping 3 of
    them reads past the only block (10 bytes of data).  On a stack of
    1-byte elements with a chunk capacity of [2^64 - 1] the allocation
    request wraps to 14 bytes, 6 of them for data: after seven calls of
    [BLI_stack_push_r] the stack holds 7 elements, and popping one reads
    past the block.  And on a stack of 1-byte elements with a chunk
    capacity of 2, a push, a discard and a pop with a null destination
    (the last one on an empty stack, which frees the only chunk) leave a
    count of [2^64 - 1] and no chunk: popping one element then reads
    through the null chunk pointer. *)
Lemma pop_n_order_counterexample :
  (exists s0 s,
     BLI_stack_new_ex 2 3 = Ok s0
     /\ run (repeat OpPushR 8) s0 = Ok s
     /\ legal (repeat OpPushR 8) s0 = true
     /\ BLI_stack_count s = 8
     /\ pre (OpPopN (repeat Undef 6) (Some 0) 3) s = true
     /\ BLI_stack_pop_n s (repeat Undef 6) (Some 0) 3 = UB
     /\ BLI_stack_pop_n_reverse s (repeat Undef 6) (Some 0) 3 = UB)
  /\ (exists s0 s,
        BLI_stack_new_ex 1 (2 ^ 64 - 1) = Ok s0
        /\ run (repeat OpPushR 7) s0 = Ok s
        /\ legal (repeat OpPushR 7) s0 = true
        /\ BLI_stack_count s = 7
        /\ pre (OpPopN [Undef] (Some 0) 1) s = true
        /\ BLI_stack_pop_n s [Undef] (Some 0) 1 = UB
        /\ BLI_stack_pop_n_reverse s [Undef] (Some 0) 1 = UB)
  /\ (exists s0 s,
        BLI_stack_new_ex 1 2 = Ok s0
        /\ run [OpPush (bytes ["A"%byte]); OpDiscard; OpPop [] None] s0
           = Ok s
        /\ BLI_stack_count s = 2 ^ 64 - 1
        /\ top_chunk s = []
        /\ BLI_stack_pop_n s [Undef] (Some 0) 1 = UB
        /\ BLI_stack_pop_n_reverse s [Undef] (Some 0) 1 = UB).
Proof.
  conjuncts.
  - eexists _, _. split; [vm_compute; reflexivity|].
    split; [vm_compute; reflexivity|].
    vm_compute. conjuncts; reflexivity.
  - eexists _, _. split; [vm_compute; reflexivity|].
    split; [vm_compute; reflexivity|].
    vm_compute. conjuncts; reflexivity.
  - eexists _, _. split; [vm_compute; reflexivity|].
    split; [vm_compute; reflexivity|].
    vm_compute. conjuncts; reflexivity.
Qed.

(** * Further properties of the code *)

(** ** Creation, and the stack without a chunk *)

(** [BLI_stack_new] and [BLI_stack_new_ex] with a chunk size of [0] create
    the same stack: empty, without a chunk, with room for 1024 elements
    per chunk (as long as [1024 * elem_size] is a [size_t]). *)
Theorem new_default_capacity es :
  0 < es ->
  1024 * es < SIZE_MAX1 ->
  exists s,
    BLI_stack_new es = Ok s
    /\ BLI_stack_new_ex es 0 = Ok s
    /\ elem_size s = es
    /\ chunk_size s = 1024 * es
    /\ top_chunk s = []
    /\ mallocs s = O
    /\ BLI_stack_count s = 0
    /\ BLI_stack_is_empty s = true
    /\ wf s.
Proof.
  intros Hes Hsz.
  assert (Hnew : BLI_stack_new_ex es 0
                 = Ok {| elem_size := es; chunk_size := 1024 * es;
                         chunk_index := 0; element_count := 0;
                         top_chunk := []; mallocs := 0; frees := 0 |}).
  { unfold BLI_stack_new_ex.
    replace (es >? 0) with true by (symmetry; apply Z.gtb_lt; lia).
    change (0 >? 0) with false. cbv iota.
    rewrite size_t_small by lia. reflexivity. }
  eexists. split; [|split; [exact Hnew|]].
  - unfold BLI_stack_new, BLI_stack_new_ex.
    replace (es >? 0) with true by (symmetry; apply Z.gtb_lt; lia).
    rewrite size_t_small by lia.
    replace (1024 * es >? 0) with true by (symmetry; apply Z.gtb_lt; lia).
    reflexivity.
  - conjuncts; try reflexivity.
    apply (new_ex_spec es 0 _ Hnew); cbn [chunk_size].
    + lia.
    + apply Z.mod_mul. lia.
    + unfold sizeof_StackChunk, SIZE_MAX1 in *. lia.
Qed.

Lemma new_default_capacity_witness :
  exists s,
    BLI_stack_new 4 = Ok s
    /\ BLI_stack_new_ex 4 0 = Ok s
    /\ elem_size s = 4
    /\ chunk_size s = 1024 * 4
    /\ top_chunk s = []
    /\ mallocs s = O
    /\ BLI_stack_count s = 0
    /\ BLI_stack_is_empty s = true
    /\ wf s.
Proof.
  apply (new_default_capacity 4).
  - lia.
  - unfold SIZE_MAX1. lia.
Defined.

(** On a stack that was just created or just cleared, whatever its sizes,
    [BLI_stack_pop], [BLI_stack_discard] and [BLI_stack_peek] fail their
    assertion: there is no chunk. *)
Theorem no_chunk_asserts es cs s buf dst :
  (s0 <- BLI_stack_new_ex es cs ;; BLI_stack_pop s0 buf dst) = AssertFail
  /\ (s0 <- BLI_stack_new_ex es cs ;; BLI_stack_discard s0) = AssertFail
  /\ (s0 <- BLI_stack_new_ex es cs ;; BLI_stack_peek s0) = AssertFail
  /\ BLI_stack_pop (BLI_stack_clear s) buf dst = AssertFail
  /\ BLI_stack_discard (BLI_stack_clear s) = AssertFail
  /\ BLI_stack_peek (BLI_stack_clear s) = AssertFail.
Proof.
  unfold BLI_stack_new_ex.
  destruct (es >? 0); cbn [bind]; conjuncts; try reflexivity;
    apply empty_without_chunk_asserts; reflexivity.
Qed.

(** ** Allocation bookkeeping *)

(** Whatever the sizes given at creation and whatever calls were made
    (with any arguments, as long as they returned), the element size and
    the chunk size are those of the creation, every chunk ever allocated
    is either freed or resident in the chunk list, and [BLI_stack_free]
    frees the resident ones: allocations and deallocations are then
    equal. *)
Theorem allocation_balance es cs ops s0 s :
  BLI_stack_new_ex es cs = Ok s0 ->
  run ops s0 = Ok s ->
  elem_size s = es
  /\ chunk_size s = chunk_size s0
  /\ mallocs s = (frees s + length (top_chunk s))%nat
  /\ BLI_stack_free s = (mallocs s, mallocs s).
Proof.
  intros Hnew Hrun.
  assert (H0 : ledger es (chunk_size s0) s0).
  { unfold BLI_stack_new_ex in Hnew. destruct (es >? 0); [|discriminate].
    injection Hnew as <-. unfold ledger. cbn. auto. }
  destruct (run_ledger _ _ ops s0 s H0 Hrun) as (He & Hc & Hl).
  conjuncts; try assumption.
  unfold BLI_stack_free. rewrite free_chunks_count. f_equal. lia.
Qed.

Lemma allocation_balance_witness :
  exists s0 s,
    BLI_stack_new_ex 2 3 = Ok s0
    /\ run [OpPushR; OpPushR; OpDiscard; OpClear; OpPushR] s0 = Ok s
    /\ elem_size s = 2
    /\ chunk_size s = chunk_size s0
    /\ mallocs s = (frees s + length (top_chunk s))%nat
    /\ BLI_stack_free s = (mallocs s, mallocs s).
Proof.
  eexists _, _. split; [vm_compute; reflexivity|].
  split; [vm_compute; reflexivity|].
  eapply (allocation_balance 2 3
            [OpPushR; OpPushR; OpDiscard; OpClear; OpPushR]);
    vm_compute; reflexivity.
Defined.

(** ** Calls that meet their obligations, as list operations *)

Lemma skipn_app_exact {A} (xs rest : list A) n :
  length xs = n -> skipn n (xs ++ rest) = rest.
Proof.
  intros <-. rewrite skipn_app, skipn_all, Nat.sub_diag. reflexivity.
Qed.

(** On a stack whose chunk size (the capacity given at creation, or
    [1024 * elem_size] modulo [2^64] when [0] is given) is a positive
    multiple of the element size and does not make the allocation
    request wrap, in every state that calls meeting their obligations
    reach from the fresh stack: a call that meets its obligations
    returns (no assertion fails, no access is out of bounds), and acts
    on the elements held as the corresponding operation on a list: push
    conses, pop and discard take the tail, pop_n and pop_n_reverse drop
    [n] elements, clear empties; the element count is the length of that
    list modulo [2^64]. *)
Theorem legal_call_refines_list es cs s0 s o :
  BLI_stack_new_ex es cs = Ok s0 ->
  0 < chunk_size s0 ->
  chunk_size s0 mod es = 0 ->
  sizeof_StackChunk + chunk_size s0 - 1 < SIZE_MAX1 ->
  reachable s0 s ->
  pre o s = true ->
  exists s',
    exec o s = Ok s'
    /\ reachable s0 s'
    /\ list_step es o (contents s) (contents s')
    /\ BLI_stack_count s' = size_t (Z.of_nat (length (contents s'))).
Proof.
  intros Hnew Hpos Hmul Hreq Hreach Hpre.
  destruct (reachable_fresh es cs s0 s Hnew Hpos Hmul Hreq Hreach)
    as (Hwf & He & _).
  assert (G : exists s', exec o s = Ok s' /\ wf s'
                         /\ list_step es o (contents s) (contents s')).
  { destruct o as [src| |buf dst| |buf dst n|buf dst n|];
      cbn [exec pre list_step] in *.
    - apply Z.leb_le in Hpre.
      destruct (push_spec s src Hwf Hpre) as (s' & H1 & H2 & H3 & _).
      exists s'. rewrite <- He. auto.
    - destruct (push_r_spec s Hwf)
        as (s' & c & rest & H1 & _ & H2 & _ & _ & _ & Hne & Htl & _).
      exists s'. rewrite H1. cbn [bind]. conjuncts; auto.
      destruct (contents s') as [|x xs]; [congruence|].
      exists x. cbn [tl] in Htl. congruence.
    - apply andb_true_iff in Hpre. destruct Hpre as [Hne Hdst].
      apply negb_true_iff in Hne.
      destruct (nonempty_contents s Hwf Hne) as (x & xs & Hc).
      destruct (pop_spec s buf dst x xs Hwf Hc Hdst)
        as (s' & H1 & H2 & H3 & _).
      exists s'. rewrite H1, Hc. cbn [bind tl]. auto.
    - apply negb_true_iff in Hpre.
      destruct (nonempty_contents s Hwf Hpre) as (x & xs & Hc).
      destruct (discard_spec s x xs Hwf Hc) as (s' & H1 & H2 & H3 & _).
      exists s'. rewrite Hc. cbn [tl]. auto.
    - destruct dst as [d|]; [|discriminate].
      rewrite !andb_true_iff in Hpre.
      destruct Hpre as [[[[[H0 H32] Hn] Hd] Hfit] Hbuf].
      apply Z.leb_le in H0, Hn, Hd, Hfit. apply Z.ltb_lt in Hbuf.
      destruct (top_elements s n Hwf ltac:(lia)) as (xs & rest & Hc & Hlen).
      destruct (pop_n_loop_spec xs s buf d 0 rest Hwf Hc Hd ltac:(lia))
        as (s' & H1 & H2 & H3 & _);
        [rewrite Hlen, Z2Nat.id by lia; lia | assumption |].
      exists s'. unfold BLI_stack_pop_n. rewrite <- Hlen, H1. cbn [bind].
      rewrite Hc, skipn_app_exact by reflexivity. auto.
    - destruct dst as [d|]; [|discriminate].
      rewrite !andb_true_iff in Hpre.
      destruct Hpre as [[[[[H0 H32] Hn] Hd] Hfit] Hbuf].
      apply Z.leb_le in H0, Hn, Hd, Hfit. apply Z.ltb_lt in Hbuf.
      destruct (top_elements s n Hwf ltac:(lia)) as (xs & rest & Hc & Hlen).
      destruct (pop_n_reverse_loop_spec xs s buf d rest Hwf Hc Hd)
        as (s' & H1 & H2 & H3 & _);
        [rewrite Hlen, Z2Nat.id by lia; lia | assumption |].
      exists s'. unfold BLI_stack_pop_n_reverse.
      rewrite <- Hlen, H1. cbn [bind].
      rewrite Hc, skipn_app_exact by reflexivity. auto.
    - destruct (clear_spec s Hwf) as (H1 & H2 & _). eauto. }
  destruct G as (s' & Hex & Hwf' & Hstep).
  exists s'. conjuncts; try assumption.
  - exact (reach_step s0 s o s' Hreach Hpre Hex).
  - exact (wf_count _ Hwf').
Qed.

Lemma legal_call_refines_list_witness :
  exists s0 s,
    BLI_stack_new_ex 1 2 = Ok s0
    /\ run [OpPush (bytes ["a"%byte]); OpPush (bytes ["b"%byte]);
            OpPush (bytes ["c"%byte])] s0 = Ok s
    /\ exists s',
         exec (OpPopN [Undef; Undef] (Some 0) 2) s = Ok s'
         /\ reachable s0 s'
         /\ list_step 1 (OpPopN [Undef; Undef] (Some 0) 2)
              (contents s) (contents s')
         /\ BLI_stack_count s' = size_t (Z.of_nat (length (contents s'))).
Proof.
  eexists _, _. split; [vm_compute; reflexivity|].
  split; [vm_compute; reflexivity|].
  eapply (legal_call_refines_list 1 2).
  - vm_compute; reflexivity.
  - vm_compute; reflexivity.
  - vm_compute; reflexivity.
  - vm_compute; reflexivity.
  - apply (legal_run_reachable
             [OpPush (bytes ["a"%byte]); OpPush (bytes ["b"%byte]);
              OpPush (bytes ["c"%byte])]); vm_compute; reflexivity.
  - vm_compute; reflexivity.
Defined.

(** ** Pop returns the top element *)

(** On a stack whose chunk size is a positive multiple of the element
    size and does not make the allocation request wrap, in every
    non-empty state that calls meeting their obligations reach from the
    fresh stack, [BLI_stack_pop] with a destination of [elem_size] cells
    copies the top element to the destination, removes it and nothing
    else, and decrements the element count. *)
Theorem pop_returns_top es cs s0 s buf d :
  BLI_stack_new_ex es cs = Ok s0 ->
  0 < chunk_size s0 ->
  chunk_size s0 mod es = 0 ->
  sizeof_StackChunk + chunk_size s0 - 1 < SIZE_MAX1 ->
  reachable s0 s ->
  BLI_stack_is_empty s = false ->
  dst_ok buf (Some d) es = true ->
  exists s' buf' x,
    BLI_stack_pop s buf (Some d) = Ok (s', buf')
    /\ contents s = x :: contents s'
    /\ mem_load buf' d es = Ok x
    /\ buf' = mem_write buf (Z.to_nat d) x
    /\ BLI_stack_count s' = BLI_stack_count s - 1.
Proof.
  intros Hnew Hpos Hmul Hreq Hreach Hne Hdst.
  destruct (reachable_fresh es cs s0 s Hnew Hpos Hmul Hreq Hreach)
    as (Hwf & He & _).
  destruct (nonempty_contents s Hwf Hne) as (x & xs & Hc).
  rewrite <- He in Hdst.
  destruct (pop_spec s buf (Some d) x xs Hwf Hc Hdst)
    as (s' & Hpop & Hwf' & Hc' & _ & _ & Hx & _).
  cbn [popped_into] in Hpop.
  exists s', (mem_write buf (Z.to_nat d) x), x.
  conjuncts; try congruence.
  - rewrite <- He. apply load_written; assumption.
  - apply count_after_pops; try assumption.
    + unfold BLI_stack_is_empty in Hne. apply Z.eqb_neq in Hne.
      unfold BLI_stack_count.
      pose proof (size_t_range (Z.of_nat (length (contents s)))) as Hr.
      rewrite <- (wf_count _ Hwf) in Hr. lia.
    + rewrite Hc, Hc'. cbn [length]. lia.
Qed.

Lemma pop_returns_top_witness :
  exists s0 s,
    BLI_stack_new_ex 1 2 = Ok s0
    /\ run [OpPush (bytes ["a"%byte]); OpPush (bytes ["b"%byte]);
            OpPush (bytes ["c"%byte])] s0 = Ok s
    /\ exists s' buf' x,
         BLI_stack_pop s [Undef; Undef] (Some 1) = Ok (s', buf')
         /\ contents s = x :: contents s'
         /\ mem_load buf' 1 1 = Ok x
         /\ buf' = mem_write [Undef; Undef] (Z.to_nat 1) x
         /\ BLI_stack_count s' = BLI_stack_count s - 1.
Proof.
  eexists _, _. split; [vm_compute; reflexivity|].
  split; [vm_compute; reflexivity|].
  eapply (pop_returns_top 1 2).
  - vm_compute; reflexivity.
  - vm_compute; reflexivity.
  - vm_compute; reflexivity.
  - vm_compute; reflexivity.
  - apply (legal_run_reachable
             [OpPush (bytes ["a"%byte]); OpPush (bytes ["b"%byte]);
              OpPush (bytes ["c"%byte])]); vm_compute; reflexivity.
  - vm_compute; reflexivity.
  - vm_compute; reflexivity.
Defined.

(** ** Peek *)

(** The states that returning calls reach from a stack whose chunk size
    is a positive multiple of the element size and fits the allocation
    request. *)
Lemma run_fresh es cs ops s0 s :
  BLI_stack_new_ex es cs = Ok s0 ->
  0 < chunk_size s0 ->
  chunk_size s0 mod es = 0 ->
  sizeof_StackChunk + chunk_size s0 - 1 < SIZE_MAX1 ->
  run ops s0 = Ok s ->
  sound s /\ elem_size s = es.
Proof.
  intros Hnew Hpos Hmul Hreq Hrun.
  destruct (new_ex_spec es cs s0 Hnew Hpos Hmul Hreq)
    as (Hwf0 & _ & He0 & _).
  split; [exact (run_sound ops s0 s (wf_sound _ Hwf0) Hrun)|].
  assert (L : ledger es (chunk_size s0) s0).
  { unfold ledger. pose proof (wf_live _ Hwf0). auto. }
  exact (proj1 (run_ledger _ _ ops s0 s L Hrun)).
Qed.

(** On a stack whose chunk size is a positive multiple of the element
    size and does not make the allocation request wrap, in every state
    reached from the fresh stack by calls that returned (with any
    arguments), [BLI_stack_push_r] returns, increments the element count
    modulo [2^64], and the pointer it returns is the one
    [BLI_stack_peek] returns right after it. *)
Theorem push_r_then_peek es cs ops s0 s :
  BLI_stack_new_ex es cs = Ok s0 ->
  0 < chunk_size s0 ->
  chunk_size s0 mod es = 0 ->
  sizeof_StackChunk + chunk_size s0 - 1 < SIZE_MAX1 ->
  run ops s0 = Ok s ->
  exists s' p,
    BLI_stack_push_r s = Ok (s', p)
    /\ BLI_stack_peek s' = Ok p
    /\ BLI_stack_count s' = size_t (BLI_stack_count s + 1).
Proof.
  intros Hnew Hpos Hmul Hreq Hrun.
  destruct (run_fresh es cs ops s0 s Hnew Hpos Hmul Hreq Hrun)
    as (Hs & _).
  pose proof Hs as [[Hes Hcs Hcm [Him Hidx]] Hfit _ _].
  destruct (malloc_request_fits s ltac:(lia)) as (_ & Hguard & _).
  destruct (push_r_returns s Hguard) as (s' & p & Hr).
  destruct (push_r_inv _ _ _ Hr)
    as (He1 & _ & Hi1 & Hn1 & _ & _ & _ & _ & c & rest & Etop & Hp).
  set (I := if needs_chunk s then 0 else chunk_index s) in *.
  assert (HI : 0 <= I < SIZE_MAX1)
    by (unfold I; destruct (needs_chunk s); lia).
  assert (Hback : size_t (size_t (I + elem_size s) - elem_size s) = I).
  { unfold size_t. rewrite Zminus_mod_idemp_l.
    replace (I + elem_size s - elem_size s) with I by lia.
    apply Z.mod_small. exact HI. }
  exists s', p. split; [exact Hr|]. split; [|exact Hn1].
  unfold BLI_stack_peek. rewrite Etop, Hi1, He1, Hback, Hp. reflexivity.
Qed.

Lemma push_r_then_peek_witness :
  exists s0 s,
    BLI_stack_new_ex 2 4 = Ok s0
    /\ run [OpPushR; OpPushR; OpPop [] None; OpPop [] None; OpPop [] None]
         s0 = Ok s
    /\ exists s' p,
         BLI_stack_push_r s = Ok (s', p)
         /\ BLI_stack_peek s' = Ok p
         /\ BLI_stack_count s' = size_t (BLI_stack_count s + 1).
Proof.
  eexists _, _. split; [vm_compute; reflexivity|].
  split; [vm_compute; reflexivity|].
  eapply (push_r_then_peek 2 4
            [OpPushR; OpPushR; OpPop [] None; OpPop [] None; OpPop [] None]).
  - vm_compute; reflexivity.
  - vm_compute; reflexivity.
  - vm_compute; reflexivity.
  - vm_compute; reflexivity.
  - vm_compute; reflexivity.
Defined.

(** On a stack whose chunk size is a positive multiple of the element
    size and does not make the allocation request wrap, in every state
    that calls meeting their obligations reach from the fresh stack and
    in which the offset of the head chunk is positive, [BLI_stack_peek]
    returns the address of the top element: the [elem_size] cells there
    are the element that the next pop returns. *)
Theorem peek_top es cs s0 s :
  BLI_stack_new_ex es cs = Ok s0 ->
  0 < chunk_size s0 ->
  chunk_size s0 mod es = 0 ->
  sizeof_StackChunk + chunk_size s0 - 1 < SIZE_MAX1 ->
  reachable s0 s ->
  0 < chunk_index s ->
  exists p x xs,
    BLI_stack_peek s = Ok p
    /\ contents s = x :: xs
    /\ chunks_load (top_chunk s) p es = Ok x.
Proof.
  intros Hnew Hcpos Hmul Hreq Hreach Hpos.
  destruct (reachable_fresh es cs s0 s Hnew Hcpos Hmul Hreq Hreach)
    as (Hwf & He & _).
  rewrite <- He. exact (peek_spec s Hwf Hpos).
Qed.

Lemma peek_top_witness :
  exists s0 s,
    BLI_stack_new_ex 1 2 = Ok s0
    /\ run [OpPush (bytes ["a"%byte]); OpPush (bytes ["b"%byte]);
            OpPush (bytes ["c"%byte])] s0 = Ok s
    /\ exists p x xs,
         BLI_stack_peek s = Ok p
         /\ contents s = x :: xs
         /\ chunks_load (top_chunk s) p 1 = Ok x.
Proof.
  eexists _, _. split; [vm_compute; reflexivity|].
  split; [vm_compute; reflexivity|].
  eapply (peek_top 1 2).
  - vm_compute; reflexivity.
  - vm_compute; reflexivity.
  - vm_compute; reflexivity.
  - vm_compute; reflexivity.
  - apply (legal_run_reachable
             [OpPush (bytes ["a"%byte]); OpPush (bytes ["b"%byte]);
              OpPush (bytes ["c"%byte])]); vm_compute; reflexivity.
  - vm_compute; reflexivity.
Defined.

(** On a stack whose chunk size is a positive multiple of the element
    size and does not make the allocation request wrap, in every state
    that calls meeting their obligations reach from the fresh stack:
    right after a push of a value [x] of [elem_size] bytes,
    [BLI_stack_peek] returns the address of the bytes of [x]. *)
Theorem push_then_peek es cs s0 s (x : list byte) :
  BLI_stack_new_ex es cs = Ok s0 ->
  0 < chunk_size s0 ->
  chunk_size s0 mod es = 0 ->
  sizeof_StackChunk + chunk_size s0 - 1 < SIZE_MAX1 ->
  reachable s0 s ->
  Z.of_nat (length x) = es ->
  exists s1 p,
    BLI_stack_push s (Some (bytes x)) = Ok s1
    /\ BLI_stack_peek s1 = Ok p
    /\ chunks_load (top_chunk s1) p es = Ok (bytes x).
Proof.
  intros Hnew Hcpos Hmul Hreq Hreach Hx.
  destruct (reachable_fresh es cs s0 s Hnew Hcpos Hmul Hreq Hreach)
    as (Hwf & He & _).
  assert (Hlen : Z.of_nat (length (bytes x)) = elem_size s)
    by (unfold bytes; rewrite length_map; congruence).
  destruct (push_spec s (bytes x) Hwf ltac:(lia))
    as (s1 & Hpush & Hwf1 & Hc1 & He1 & _ & _ & _ & Hidx).
  rewrite firstn_all2 in Hc1 by lia.
  assert (Hpos : 0 < chunk_index s1).
  { rewrite Hidx. pose proof (wf_idx _ Hwf). pose proof (wf_es _ Hwf).
    destruct (needs_chunk s); lia. }
  destruct (peek_spec s1 Hwf1 Hpos) as (p & y & ys & Hpeek & Hc & Hload).
  exists s1, p. conjuncts; try assumption.
  rewrite He1, He in Hload. rewrite Hload. congruence.
Qed.

Lemma push_then_peek_witness :
  exists s0 s,
    BLI_stack_new_ex 1 2 = Ok s0
    /\ run [OpPush (bytes ["a"%byte]); OpPush (bytes ["b"%byte])] s0 = Ok s
    /\ exists s1 p,
         BLI_stack_push s (Some (bytes ["c"%byte])) = Ok s1
         /\ BLI_stack_peek s1 = Ok p
         /\ chunks_load (top_chunk s1) p 1 = Ok (bytes ["c"%byte]).
Proof.
  eexists _, _. split; [vm_compute; reflexivity|].
  split; [vm_compute; reflexivity|].
  eapply (push_then_peek 1 2).
  - vm_compute; reflexivity.
  - vm_compute; reflexivity.
  - vm_compute; reflexivity.
  - vm_compute; reflexivity.
  - apply (legal_run_reachable
             [OpPush (bytes ["a"%byte]); OpPush (bytes ["b"%byte])]);
      vm_compute; reflexivity.
  - reflexivity.
Defined.

(** ** The element count under calls that meet their obligations *)













(** ** The empty stack *)





(** ** Clear *)

(** On a stack whose chunk size is a positive multiple of the element
    size and does not make the allocation request wrap, in every state
    that calls meeting their obligations reach from the fresh stack,
    [BLI_stack_clear] frees every resident chunk: the stack is empty,
    allocations and deallocations are equal, and the stack can be used
    again: values of [elem_size] bytes pushed on it come back in reverse
    order. *)
Theorem clear_then_reuse es cs s0 s (vs : list (list byte)) :
  BLI_stack_new_ex es cs = Ok s0 ->
  0 < chunk_size s0 ->
  chunk_size s0 mod es = 0 ->
  sizeof_StackChunk + chunk_size s0 - 1 < SIZE_MAX1 ->
  reachable s0 s ->
  Forall (fun v => Z.of_nat (length v) = es) vs ->
  BLI_stack_count (BLI_stack_clear s) = 0
  /\ BLI_stack_is_empty (BLI_stack_clear s) = true
  /\ top_chunk (BLI_stack_clear s) = []
  /\ frees (BLI_stack_clear s) = mallocs s
  /\ exists s2,
       (s1 <- push_all (map bytes vs) (BLI_stack_clear s) ;;
        pop_values (length vs) s1)
       = Ok (s2, map bytes (rev vs)).
Proof.
  intros Hnew Hcpos Hmul Hreq Hreach Hall.
  destruct (reachable_fresh es cs s0 s Hnew Hcpos Hmul Hreq Hreach)
    as (Hwf & He & _).
  destruct (clear_spec s Hwf) as (Hwfc & Hcc & Hec & _).
  conjuncts; try reflexivity.
  - cbn [BLI_stack_clear frees]. rewrite free_chunks_count.
    pose proof (wf_live _ Hwf). lia.
  - destruct (push_all_spec (map bytes vs) _ Hwfc)
      as (s1 & Hpush & Hwf1 & Hc1 & _).
    { rewrite Hec, He. apply Forall_map.
      eapply Forall_impl; [|exact Hall].
      intros v Hv. unfold bytes. now rewrite length_map. }
    rewrite Hcc, app_nil_r in Hc1.
    destruct (pop_values_spec (rev (map bytes vs)) s1 [] Hwf1)
      as (s2 & Hpop & _).
    { now rewrite app_nil_r. }
    exists s2. rewrite Hpush. cbn [bind].
    rewrite length_rev, length_map in Hpop. rewrite Hpop.
    now rewrite map_rev.
Qed.

Lemma clear_then_reuse_witness :
  exists s0 s,
    BLI_stack_new_ex 1 2 = Ok s0
    /\ run [OpPush (bytes ["a"%byte]); OpPush (bytes ["b"%byte]);
            OpPush (bytes ["c"%byte])] s0 = Ok s
    /\ BLI_stack_count (BLI_stack_clear s) = 0
    /\ BLI_stack_is_empty (BLI_stack_clear s) = true
    /\ top_chunk (BLI_stack_clear s) = []
    /\ frees (BLI_stack_clear s) = mallocs s
    /\ exists s2,
         (s1 <- push_all (map bytes [["x"]; ["y"]; ["z"]]%byte)
                  (BLI_stack_clear s) ;;
          pop_values 3 s1)
         = Ok (s2, map bytes [["z"]; ["y"]; ["x"]]%byte).
Proof.
  eexists _, _. split; [vm_compute; reflexivity|].
  split; [vm_compute; reflexivity|].
  eapply (clear_then_reuse 1 2 _ _ [["x"]; ["y"]; ["z"]]%byte).
  - vm_compute; reflexivity.
  - vm_compute; reflexivity.
  - vm_compute; reflexivity.
  - vm_compute; reflexivity.
  - apply (legal_run_reachable
             [OpPush (bytes ["a"%byte]); OpPush (bytes ["b"%byte]);
              OpPush (bytes ["c"%byte])]); vm_compute; reflexivity.
  - repeat constructor.
Defined.

(** ** pop_n and pop_n_reverse as repeated pops *)

(** In any state and whatever the destinations, when
    [BLI_stack_pop_n] and [BLI_stack_pop_n_reverse] return they leave
    the same stack, the one that [n] calls of [BLI_stack_discard] leave. *)
Theorem pop_n_final_state s buf1 dst1 buf2 dst2 n s1 b1 s2 b2 :
  BLI_stack_pop_n s buf1 dst1 n = Ok (s1, b1) ->
  BLI_stack_pop_n_reverse s buf2 dst2 n = Ok (s2, b2) ->
  s1 = s2 /\ run (repeat OpDiscard (Z.to_nat n)) s = Ok s1.
Proof.
  unfold BLI_stack_pop_n, BLI_stack_pop_n_reverse. intros H1 H2.
  destruct dst1 as [d1|]; [|discriminate].
  destruct dst2 as [d2|]; [|discriminate].
  apply pop_n_loop_discards in H1.
  apply pop_n_reverse_loop_discards in H2.
  split; [congruence | exact H1].
Qed.

Lemma pop_n_final_state_witness :
  exists s0 s s1 b1 s2 b2,
    BLI_stack_new_ex 1 2 = Ok s0
    /\ run [OpPush (bytes ["a"%byte]); OpPush (bytes ["b"%byte]);
            OpPush (bytes ["c"%byte])] s0 = Ok s
    /\ BLI_stack_pop_n s [Undef; Undef] (Some 0) 2 = Ok (s1, b1)
    /\ BLI_stack_pop_n_reverse s [Undef; Undef; Undef] (Some 1) 2
       = Ok (s2, b2)
    /\ s1 = s2
    /\ run (repeat OpDiscard (Z.to_nat 2)) s = Ok s1.
Proof.
  eexists _, _, _, _, _, _. split; [vm_compute; reflexivity|].
  split; [vm_compute; reflexivity|].
  split; [vm_compute; reflexivity|].
  split; [vm_compute; reflexivity|].
  eapply (pop_n_final_state _ [Undef; Undef] (Some 0)
            [Undef; Undef; Undef] (Some 1) 2); vm_compute; reflexivity.
Defined.

(** ** Popping more elements than the stack holds *)







(** ** How many chunks *)

(** After a push the offset of the head chunk is positive. *)
Lemma push_all_index vs :
  forall s s',
    wf s ->
    Forall (fun v => Z.of_nat (length v) = elem_size s) vs ->
    vs <> [] ->
    push_all vs s = Ok s' ->
    elem_size s <= chunk_index s'.
Proof.
  induction vs as [|v vs IH]; intros s s' Hwf Hall Hne Hp; [congruence|].
  pose proof (Forall_inv Hall) as Hv. cbn beta in Hv.
  destruct (push_spec s v Hwf ltac:(lia))
    as (s1 & H1 & Hwf1 & _ & He1 & _ & _ & _ & Hidx).
  cbn [push_all] in Hp. rewrite H1 in Hp. cbn [bind] in Hp.
  destruct vs as [|w vs].
  - cbn [push_all] in Hp. injection Hp as <-. rewrite Hidx.
    pose proof (wf_idx _ Hwf). pose proof (wf_es _ Hwf).
    destruct (needs_chunk s); lia.
  - rewrite <- He1. apply IH; try assumption; [|discriminate].
    rewrite He1. exact (Forall_inv_tail Hall).
Qed.

(** In a well-formed stack every chunk but the head is full: the
    resident chunks hold the elements, with room for less than a chunk's
    worth more besides the head's. *)
Lemma chunks_and_elements s :
  wf s ->
  let m := chunk_size s / elem_size s in
  let n := Z.of_nat (length (contents s)) in
  let c := Z.of_nat (length (top_chunk s)) in
  1 <= m /\ m * (c - 1) <= n <= m * c
  /\ (0 < chunk_index s -> m * (c - 1) < n).
Proof.
  intros Hwf m n c. subst m n c.
  pose proof (wf_es _ Hwf) as Hes. pose proof (wf_cs _ Hwf) as Hcs.
  pose proof (wf_idx _ Hwf) as Hidx. pose proof (wf_cs_mul _ Hwf) as Hcm.
  pose proof (wf_idx_mul _ Hwf) as Him.
  pose proof (multiple_eq _ _ Hes Hcm) as Ec.
  pose proof (multiple_eq _ _ Hes Him) as Ei.
  pose proof (contents_length s Hwf) as Hlen.
  assert (Hm : 1 <= chunk_size s / elem_size s) by nia.
  assert (Hk : 0 <= chunk_index s / elem_size s <= chunk_size s / elem_size s)
    by (split; [apply Z.div_pos; lia | apply Z.div_le_mono; lia]).
  destruct (top_chunk s) as [|c0 rest] eqn:Etop.
  - pose proof (wf_null _ Hwf Etop). cbn [length]. nia.
  - cbn [length]. rewrite Nat2Z.inj_succ.
    split; [exact Hm|]. split; [nia|]. intros Hpos.
    assert (1 <= chunk_index s / elem_size s) by nia. nia.
Qed.

(** On a fresh stack whose chunk size is a positive multiple of the
    element size and does not make the allocation request wrap, pushing
    [n] values of [elem_size] bytes allocates [ceil (n / m)] chunks,
    where a chunk takes [m = chunk_size / elem_size] elements; all of
    them are resident and none is freed. *)
Theorem chunks_after_pushes es cs s0 (vs : list (list byte)) :
  BLI_stack_new_ex es cs = Ok s0 ->
  0 < chunk_size s0 ->
  chunk_size s0 mod es = 0 ->
  sizeof_StackChunk + chunk_size s0 - 1 < SIZE_MAX1 ->
  Forall (fun v => Z.of_nat (length v) = es) vs ->
  exists s1,
    push_all (map bytes vs) s0 = Ok s1
    /\ Z.of_nat (mallocs s1)
       = chunks_for (Z.of_nat (length vs)) (chunk_size s1 / es)
    /\ frees s1 = O
    /\ length (top_chunk s1) = mallocs s1.
Proof.
  intros Hnew Hcpos Hmul Hreq Hall.
  destruct (new_ex_spec es cs s0 Hnew Hcpos Hmul Hreq)
    as (Hwf0 & Hc0 & He0 & _ & Hm0 & Hf0).
  assert (Hall' : Forall (fun v => Z.of_nat (length v) = elem_size s0)
                    (map bytes vs)).
  { rewrite He0. apply Forall_map.
    eapply Forall_impl; [|exact Hall].
    intros v Hv. unfold bytes. now rewrite length_map. }
  destruct (push_all_spec (map bytes vs) s0 Hwf0 Hall')
    as (s1 & Hpush & Hwf1 & Hc1 & He1 & _ & Hf1).
  rewrite Hc0, app_nil_r in Hc1.
  pose proof (wf_live _ Hwf1) as Hlive.
  destruct (chunks_and_elements s1 Hwf1) as (Hm & Hbound & Hstrict).
  rewrite Hc1, length_rev, length_map, He1, He0 in Hbound, Hstrict.
  rewrite He1, He0 in Hm.
  exists s1. conjuncts; try assumption; try lia.
  unfold chunks_for.
  set (m := chunk_size s1 / es) in *.
  set (c := Z.of_nat (length (top_chunk s1))) in *.
  set (n := Z.of_nat (length vs)) in *.
  destruct vs as [|v vs'] eqn:Evs.
  - cbn [map push_all] in Hpush. injection Hpush as <-.
    rewrite Hm0. subst n. cbn [length Z.of_nat].
    rewrite Z.div_small; lia.
  - replace (Z.of_nat (mallocs s1)) with c by (unfold c; lia).
    assert (Hpos : 0 < chunk_index s1).
    { pose proof (push_all_index (map bytes (v :: vs')) s0 s1 Hwf0 Hall'
                    ltac:(discriminate) Hpush).
      pose proof (wf_es _ Hwf0). lia. }
    specialize (Hstrict Hpos).
    apply Z.div_unique_pos with (r := n + m - 1 - m * c); nia.
Qed.

Lemma chunks_after_pushes_witness :
  exists s0,
    BLI_stack_new_ex 1 2 = Ok s0
    /\ exists s1,
         push_all (map bytes [["a"]; ["b"]; ["c"]; ["d"]; ["e"]]%byte) s0
         = Ok s1
         /\ Z.of_nat (mallocs s1)
            = chunks_for
                (Z.of_nat (length [["a"]; ["b"]; ["c"]; ["d"]; ["e"]]%byte))
                (chunk_size s1 / 1)
         /\ frees s1 = O
         /\ length (top_chunk s1) = mallocs s1.
Proof.
  eexists. split; [vm_compute; reflexivity|].
  apply (chunks_after_pushes 1 2 _ [["a"]; ["b"]; ["c"]; ["d"]; ["e"]]%byte).
  - vm_compute; reflexivity.
  - vm_compute; reflexivity.
  - vm_compute; reflexivity.
  - vm_compute; reflexivity.
  - repeat constructor.
Defined.

(** On a stack whose chunk size is a positive multiple of the element
    size and does not make the allocation request wrap, in every state
    that calls meeting their obligations reach from the fresh stack,
    every resident chunk but the head is full: with chunks of [m]
    elements, [c] resident chunks and [n] elements held,
    [m * (c - 1) <= n <= m * c]; and the resident chunks are the
    allocated ones that were not freed. *)
Theorem resident_chunks es cs s0 s :
  BLI_stack_new_ex es cs = Ok s0 ->
  0 < chunk_size s0 ->
  chunk_size s0 mod es = 0 ->
  sizeof_StackChunk + chunk_size s0 - 1 < SIZE_MAX1 ->
  reachable s0 s ->
  let m := chunk_size s / es in
  let n := Z.of_nat (length (contents s)) in
  let c := Z.of_nat (length (top_chunk s)) in
  1 <= m
  /\ m * (c - 1) <= n <= m * c
  /\ c = Z.of_nat (mallocs s) - Z.of_nat (frees s).
Proof.
  intros Hnew Hcpos Hmul Hreq Hreach m n c. subst m n c.
  destruct (reachable_fresh es cs s0 s Hnew Hcpos Hmul Hreq Hreach)
    as (Hwf & He & _).
  destruct (chunks_and_elements s Hwf) as (Hm & Hbound & _).
  rewrite He in Hm, Hbound.
  pose proof (wf_live _ Hwf).
  conjuncts; try assumption; lia.
Qed.

Lemma resident_chunks_witness :
  exists s0 s,
    BLI_stack_new_ex 1 2 = Ok s0
    /\ run [OpPush (bytes ["a"%byte]); OpPush (bytes ["b"%byte]);
            OpPush (bytes ["c"%byte]); OpDiscard] s0 = Ok s
    /\ 1 <= chunk_size s / 1
    /\ chunk_size s / 1 * (Z.of_nat (length (top_chunk s)) - 1)
       <= Z.of_nat (length (contents s))
       <= chunk_size s / 1 * Z.of_nat (length (top_chunk s))
    /\ Z.of_nat (length (top_chunk s))
       = Z.of_nat (mallocs s) - Z.of_nat (frees s).
Proof.
  eexists _, _. split; [vm_compute; reflexivity|].
  split; [vm_compute; reflexivity|].
  eapply (resident_chunks 1 2).
  - vm_compute; reflexivity.
  - vm_compute; reflexivity.
  - vm_compute; reflexivity.
  - vm_compute; reflexivity.
  - apply (legal_run_reachable
             [OpPush (bytes ["a"%byte]); OpPush (bytes ["b"%byte]);
              OpPush (bytes ["c"%byte]); OpDiscard]); vm_compute; reflexivity.
Defined.

(** ** A push after a pop *)

(** On a stack whose chunk size is a positive multiple of the element
    size and does not make the allocation request wrap, in every
    non-empty state that calls meeting their obligations reach from the
    fresh stack: a push of a value of [elem_size] bytes that follows a
    pop never allocates: the pop leaves a chunk with a free slot at the
    head of the list, and the push uses it.  The pushed value replaces
    the popped element; the elements below are untouched, and the
    element count is as before the pop. *)
Theorem pop_then_push es cs s0 s buf dst (x : list byte) :
  BLI_stack_new_ex es cs = Ok s0 ->
  0 < chunk_size s0 ->
  chunk_size s0 mod es = 0 ->
  sizeof_StackChunk + chunk_size s0 - 1 < SIZE_MAX1 ->
  reachable s0 s ->
  BLI_stack_is_empty s = false ->
  dst_ok buf dst es = true ->
  Z.of_nat (length x) = es ->
  exists s1 buf' s2,
    BLI_stack_pop s buf dst = Ok (s1, buf')
    /\ BLI_stack_push s1 (Some (bytes x)) = Ok s2
    /\ mallocs s2 = mallocs s
    /\ frees s2 = frees s1
    /\ contents s2 = bytes x :: tl (contents s)
    /\ BLI_stack_count s2 = BLI_stack_count s.
Proof.
  intros Hnew Hcpos Hmul Hreq Hreach Hne Hdst Hx.
  destruct (reachable_fresh es cs s0 s Hnew Hcpos Hmul Hreq Hreach)
    as (Hwf & He & _).
  destruct (nonempty_contents s Hwf Hne) as (y & ys & Hc).
  rewrite <- He in Hdst.
  destruct (pop_spec s buf dst y ys Hwf Hc Hdst)
    as (s1 & Hpop & Hwf1 & Hc1 & He1 & Hs1 & _ & Htop & Hm1 & _ & Hidx1).
  assert (Hlen : Z.of_nat (length (bytes x)) = elem_size s1)
    by (unfold bytes; rewrite length_map; congruence).
  destruct (push_spec s1 (bytes x) Hwf1 ltac:(lia))
    as (s2 & Hpush & Hwf2 & Hc2 & _ & _ & Hf2 & Hm2 & _).
  rewrite firstn_all2 in Hc2 by lia.
  assert (Hneed : needs_chunk s1 = false).
  { unfold needs_chunk. destruct (top_chunk s1); [congruence|].
    cbn [orb]. apply Z.eqb_neq. rewrite Hidx1, Hs1.
    pose proof (wf_idx _ Hwf). pose proof (wf_es _ Hwf).
    destruct (chunk_index s =? 0); lia. }
  rewrite Hneed in Hm2.
  exists s1, (popped_into buf dst y), s2.
  conjuncts; try congruence.
  - rewrite Hc2, Hc1, Hc. reflexivity.
  - unfold BLI_stack_count.
    rewrite (wf_count _ Hwf2), (wf_count _ Hwf), Hc2, Hc1, Hc. reflexivity.
Qed.

Lemma pop_then_push_witness :
  exists s0 s,
    BLI_stack_new_ex 1 2 = Ok s0
    /\ run [OpPush (bytes ["a"%byte]); OpPush (bytes ["b"%byte]);
            OpPush (bytes ["c"%byte])] s0 = Ok s
    /\ exists s1 buf' s2,
         BLI_stack_pop s [Undef] (Some 0) = Ok (s1, buf')
         /\ BLI_stack_push s1 (Some (bytes ["x"%byte])) = Ok s2
         /\ mallocs s2 = mallocs s
         /\ frees s2 = frees s1
         /\ contents s2 = bytes ["x"%byte] :: tl (contents s)
         /\ BLI_stack_count s2 = BLI_stack_count s.
Proof.
  eexists _, _. split; [vm_compute; reflexivity|].
  split; [vm_compute; reflexivity|].
  eapply (pop_then_push 1 2).
  - vm_compute; reflexivity.
  - vm_compute; reflexivity.
  - vm_compute; reflexivity.
  - vm_compute; reflexivity.
  - apply (legal_run_reachable
             [OpPush (bytes ["a"%byte]); OpPush (bytes ["b"%byte]);
              OpPush (bytes ["c"%byte])]); vm_compute; reflexivity.
  - vm_compute; reflexivity.
  - vm_compute; reflexivity.
  - reflexivity.
Defined.

(** ** A chunk capacity that is not a multiple of the element size *)

(** [k] calls of [BLI_stack_push_r] on a stack whose only chunk is the
    head, when the offset is a multiple of the element size and the
    capacity is not: the offset never meets the capacity, so the calls
    stay in that chunk. *)
Lemma push_r_same_chunk k :
  forall s c,
    0 < elem_size s ->
    chunk_size s mod elem_size s <> 0 ->
    top_chunk s = [c] ->
    0 <= chunk_index s ->
    chunk_index s mod elem_size s = 0 ->
    chunk_index s + Z.of_nat k * elem_size s < SIZE_MAX1 ->
    0 <= element_count s ->
    element_count s + Z.of_nat k < SIZE_MAX1 ->
    exists s',
      run (repeat OpPushR k) s = Ok s'
      /\ elem_size s' = elem_size s
      /\ chunk_size s' = chunk_size s
      /\ chunk_index s' = chunk_index s + Z.of_nat k * elem_size s
      /\ element_count s' = element_count s + Z.of_nat k
      /\ top_chunk s' = [c]
      /\ mallocs s' = mallocs s
      /\ frees s' = frees s.
Proof.
  induction k as [|k IH]; intros s c Hes Hcm Htop Hi Him Hfit Hc Hcfit.
  - exists s. cbn [repeat run]. conjuncts; try reflexivity; try assumption; lia.
  - assert (Hneed : needs_chunk s = false).
    { unfold needs_chunk. rewrite Htop. cbn [orb]. apply Z.eqb_neq.
      intros E. rewrite E in Him. contradiction. }
    rewrite Nat2Z.inj_succ in Hfit, Hcfit.
    cbn [repeat run exec]. unfold BLI_stack_push_r.
    rewrite Hneed, Htop. cbn [andb bind].
    rewrite !size_t_small by nia.
    match goal with
    | |- exists s', run _ ?t = _ /\ _ =>
        destruct (IH t c) as (s' & Hr & H);
          [cbn [elem_size chunk_size chunk_index element_count top_chunk
                mallocs frees];
           first [assumption | reflexivity | lia | nia
                  | apply multiple_succ_mod; assumption] .. |]
    end.
    cbn [elem_size chunk_size chunk_index element_count top_chunk
         mallocs frees] in H.
    destruct H as (H1 & H2 & H3 & H4 & H5 & H6 & H7).
    exists s'. conjuncts; try assumption; lia.
Qed.

(** When the chunk capacity is positive, does not make the allocation
    request wrap and is not a multiple of the element size, the offset
    of the head chunk never equals the capacity: [n >= 1] calls of
    [BLI_stack_push_r] on the fresh stack ([n * elem_size < 2^64])
    allocate one chunk and leave the offset at [n * elem_size] and the
    count at [n]; once [n * elem_size + elem_size] exceeds the
    [sizeof (StackChunk) + chunk_size - 1 - offsetof (StackChunk, data)]
    bytes that the block has from [data] on (that is [chunk_size + 7]),
    a push in that state writes past the end of the block. *)
Theorem capacity_not_multiple es cs (n : nat) (x : list byte) :
  0 < es ->
  0 < cs ->
  sizeof_StackChunk + cs - 1 < SIZE_MAX1 ->
  cs mod es <> 0 ->
  (0 < n)%nat ->
  Z.of_nat n * es < SIZE_MAX1 ->
  Z.of_nat (length x) = es ->
  exists s0 s,
    BLI_stack_new_ex es cs = Ok s0
    /\ run (repeat OpPushR n) s0 = Ok s
    /\ chunk_index s = Z.of_nat n * es
    /\ BLI_stack_count s = Z.of_nat n
    /\ mallocs s = 1%nat
    /\ length (top_chunk s) = 1%nat
    /\ (sizeof_StackChunk + cs - 1 - offsetof_data < Z.of_nat n * es + es ->
        BLI_stack_push s (Some (bytes x)) = UB).
Proof.
  intros Hes Hcs Hwrap Hcm Hn Hfit Hx.
  destruct n as [|k]; [lia|]. rewrite Nat2Z.inj_succ in *.
  unfold BLI_stack_new_ex.
  replace (es >? 0) with true by (symmetry; apply Z.gtb_lt; lia).
  replace (cs >? 0) with true by (symmetry; apply Z.gtb_lt; lia).
  eexists.
  assert (G : forall s0, elem_size s0 = es -> chunk_size s0 = cs ->
              chunk_index s0 = 0 -> element_count s0 = 0 ->
              top_chunk s0 = [] -> mallocs s0 = O ->
              exists s,
                run (repeat OpPushR (S k)) s0 = Ok s
                /\ chunk_index s = Z.succ (Z.of_nat k) * es
                /\ BLI_stack_count s = Z.succ (Z.of_nat k)
                /\ mallocs s = 1%nat
                /\ length (top_chunk s) = 1%nat
                /\ (sizeof_StackChunk + cs - 1 - offsetof_data
                    < Z.succ (Z.of_nat k) * es + es ->
                    BLI_stack_push s (Some (bytes x)) = UB)).
  { intros s0 E1 E2 E3 E4 E5 E6.
    assert (Hn0 : needs_chunk s0 = true)
      by (unfold needs_chunk; rewrite E5; reflexivity).
    destruct (malloc_request_fits s0) as (_ & Hguard & Hcells).
    { rewrite E2. unfold sizeof_StackChunk in Hwrap. lia. }
    cbn [repeat run exec]. unfold BLI_stack_push_r at 1.
    rewrite Hn0, Hguard, E5.
    cbn [andb top_chunk orb bind chunk_index elem_size
         chunk_size element_count mallocs frees].
    rewrite E1, E2, E4, E6, !Z.add_0_l, (size_t_small es), (size_t_small 1)
      by (unfold SIZE_MAX1 in *; nia).
    match goal with
    | |- exists s, run _ ?t = _ /\ _ =>
        destruct (push_r_same_chunk k t (malloc_chunk s0))
          as (s & Hr & He & Hc & Hi & Hct & Htop & Hm & Hf);
          [cbn [elem_size chunk_size chunk_index element_count top_chunk
                mallocs frees];
           first [assumption | reflexivity | lia
                  | unfold SIZE_MAX1 in *; nia
                  | apply Z.mod_same; lia] .. |]
    end.
    cbn [elem_size chunk_size chunk_index element_count top_chunk
         mallocs frees] in *.
    exists s. unfold BLI_stack_count. rewrite Htop. cbn [length].
    conjuncts; try reflexivity; try assumption; try lia.
    intros Hover.
    unfold BLI_stack_push, BLI_stack_push_r.
    assert (Hneed : needs_chunk s = false).
    { unfold needs_chunk. rewrite Htop. cbn [orb]. apply Z.eqb_neq.
      rewrite Hi, Hc. intros E. apply Hcm. rewrite <- E.
      replace (es + Z.of_nat k * es) with ((1 + Z.of_nat k) * es) by lia.
      apply Z.mod_mul. lia. }
    rewrite Hneed, Htop. cbn [andb bind elem_size chunk_size chunk_index
                              element_count top_chunk mallocs frees].
    rewrite He, load_prefix
      by (unfold bytes; rewrite length_map; lia).
    cbn [bind chunks_store p_chunk p_off]. rewrite Nat.eqb_refl.
    unfold mem_store.
    replace (_ && _) with false; [reflexivity|].
    symmetry. apply andb_false_iff. right. apply Z.leb_gt.
    rewrite length_firstn. unfold bytes. rewrite length_map.
    rewrite Hcells, E2, Hi.
    unfold sizeof_StackChunk, offsetof_data in Hover. lia. }
  match goal with
  | |- exists s, Ok ?t = Ok _ /\ _ =>
      destruct (G t) as (s & Hg); try reflexivity
  end.
  exists s. split; [reflexivity | exact Hg].
Qed.

Lemma capacity_not_multiple_witness :
  exists s0 s,
    BLI_stack_new_ex 2 3 = Ok s0
    /\ run (repeat OpPushR 8) s0 = Ok s
    /\ chunk_index s = Z.of_nat 8 * 2
    /\ BLI_stack_count s = Z.of_nat 8
    /\ mallocs s = 1%nat
    /\ length (top_chunk s) = 1%nat
    /\ (sizeof_StackChunk + 3 - 1 - offsetof_data < Z.of_nat 8 * 2 + 2 ->
        BLI_stack_push s (Some (bytes ["x"; "y"]%byte)) = UB).
Proof.
  apply (capacity_not_multiple 2 3 8 ["x"; "y"]%byte).
  - lia.
  - lia.
  - vm_compute; reflexivity.
  - discriminate.
  - lia.
  - vm_compute; reflexivity.
  - reflexivity.
Defined.
